(** * MultiPathGenerator: a shallow embedding of ql/MonteCarlo/multipathgenerator.hpp

    The generator turns one weighted random sequence per call into a
    correlated multi-asset path.  Doubles are IEEE binary64 values
    (primitive floats), [Size] is std::size_t with its wrap-around, every
    container access is checked and an access outside a container ends
    the computation with [OutOfRange] (the source has undefined
    behaviour there), and [QL_REQUIRE] raises [Error]. *)

From Stdlib Require Import Floats.PrimFloat NArith String.
From Stdlib Require Floats.FloatAxioms.
From stdpp Require Import base list pretty.

(** ** Unsigned sizes *)

Module Size.
(** std::size_t, taken at 64 bits; the proofs below use [modulus]
    only through [wrap]. *)
Abbreviation t := N (only parsing).
Definition modulus : N := (2 ^ 64)%N.
Definition wrap (n : N) : t := (n mod modulus)%N.
Definition of_nat (n : nat) : t := wrap (N.of_nat n).
Definition to_nat (n : t) : nat := N.to_nat n.
Definition sub (a b : t) : t := wrap (a + (modulus - wrap b))%N.
Definition mul (a b : t) : t := wrap (a * b)%N.
End Size.

(** ** Errors *)

Inductive error : Type :=
| Error (what : string)   (* the exception thrown by QL_REQUIRE *)
| OutOfRange.             (* a read or a write outside a container *)

Inductive result (A : Type) : Type :=
| Ok (a : A)
| Err (e : error).
Arguments Ok {A} a.
Arguments Err {A} e.

Definition bind {A B : Type} (m : result A) (k : A -> result B) : result B :=
  match m with
  | Ok a => k a
  | Err e => Err e
  end.

Notation "x <- m ;; k" := (bind m (fun x => k))
  (at level 100, m at next level, right associativity).

(** Modelled from the spec: QL_REQUIRE (ql/errors.hpp is not part of the
    sources at hand) reports a configuration error: it throws [Error]
    with its message when its condition is false. *)
Definition QL_REQUIRE (condition : bool) (message : string) : result unit :=
  if condition then Ok tt else Err (Error message).

(** [v[i]] as a read and as a write. *)
Definition at_ {A : Type} (l : list A) (i : nat) : result A :=
  match l !! i with
  | Some x => Ok x
  | None => Err OutOfRange
  end.

Definition store {A : Type} (l : list A) (i : nat) (x : A) : result (list A) :=
  if decide (i < length l) then Ok (<[i:=x]> l) else Err OutOfRange.

(** [for (Size k = lo; k < lo + count; k++) body] over a state. *)
Fixpoint for_range {St : Type} (lo count : nat)
    (body : nat -> St -> result St) (s : St) : result St :=
  match count with
  | O => Ok s
  | S count' => s' <- body lo s ;; for_range (S lo) count' body s'
  end.

(** ** Numbers, arrays, matrices *)

Abbreviation Time := float (only parsing).
Abbreviation Array := (list float) (only parsing).
Abbreviation Matrix := (list (list float)) (only parsing).

(** QL_SQRT is the square root of the C library, correctly rounded. *)
Definition QL_SQRT (x : float) : float := PrimFloat.sqrt x.

(** Modelled from the spec: the Array and Matrix classes (ql/array.hpp and
    ql/Math/matrix.hpp are not part of the sources at hand).  A matrix is
    the list of its rows; the spec's "S·draw" is the row-by-vector inner
    product, accumulated from 0.0 in index order. *)
Definition rows (m : Matrix) : nat := length m.

Definition columns (m : Matrix) : nat :=
  match m with
  | [] => 0
  | r :: _ => length r
  end.

Definition Matrix_at (m : Matrix) (i j : nat) : result float :=
  r <- at_ m i ;; at_ r j.

Definition inner_product (a b : Array) : float :=
  foldl (fun acc p => (acc + fst p * snd p)%float) 0%float (zip a b).

(** The product reads [v[k]] for every column [k] of every row; the
    spec names no size check, so a row longer than [v] reads past the
    end of [v]. *)
Definition Matrix_mul_Array (m : Matrix) (v : Array) : result Array :=
  if decide (Forall (fun r : Array => length r <= length v) m)
  then Ok (map (fun r => inner_product r v) m)
  else Err OutOfRange.

(** [std::copy(src.begin()+offset, src.begin()+offset+count, dst.begin())] *)
Definition Array_copy (src : Array) (offset count : nat) (dst : Array)
    : result Array :=
  if decide (offset + count <= length src /\ count <= length dst)
  then Ok (take count (drop offset src) ++ drop count dst)
  else Err OutOfRange.

(** ** Time grid, paths, samples *)

(** Modelled from the spec: the TimeGrid class (ql/grid.hpp is not part of
    the sources at hand): the ordered time points, with
    dt(i) = t[i+1] - t[i]. *)
Abbreviation TimeGrid := (list float) (only parsing).

Module TimeGrid.
Definition size (g : TimeGrid) : Size.t := Size.of_nat (length g).
Definition dt (g : TimeGrid) (i : nat) : result Time :=
  t1 <- at_ g (i + 1) ;; t0 <- at_ g i ;; Ok (t1 - t0)%float.
End TimeGrid.

(** Modelled from the spec: Path and MultiPath (ql/MonteCarlo/path.hpp and
    multipath.hpp are not part of the sources at hand).  A path carries
    the time grid and two increment arrays of |timeGrid| - 1 entries,
    and its size is the number of these entries; a multi-path is one
    path per asset on one grid.  Array(n) leaves its entries
    unspecified, so the initial content is the parameter [fill]. *)
Module Path.
Record t : Type := mk {
  timeGrid : TimeGrid;
  drift : Array;
  diffusion : Array
}.

Definition make (fill : float) (times : TimeGrid) : t :=
  {| timeGrid := times;
     drift := replicate (length times - 1) fill;
     diffusion := replicate (length times - 1) fill |}.

Definition size (p : t) : nat := length (drift p).

Definition set_drift (p : t) (d : Array) : t :=
  {| timeGrid := timeGrid p; drift := d; diffusion := diffusion p |}.

Definition set_diffusion (p : t) (d : Array) : t :=
  {| timeGrid := timeGrid p; drift := drift p; diffusion := d |}.
End Path.

Abbreviation MultiPath := (list Path.t) (only parsing).

Module MultiPath.
Definition make (fill : float) (nAsset : nat) (times : TimeGrid) : MultiPath :=
  replicate nAsset (Path.make fill times).

(** [mp[j].drift()[i] = x] *)
Definition write_drift (mp : MultiPath) (j i : nat) (x : float)
    : result MultiPath :=
  p <- at_ mp j ;;
  d <- store (Path.drift p) i x ;;
  store mp j (Path.set_drift p d).

(** [mp[j].diffusion()[i] = x] *)
Definition write_diffusion (mp : MultiPath) (j i : nat) (x : float)
    : result MultiPath :=
  p <- at_ mp j ;;
  d <- store (Path.diffusion p) i x ;;
  store mp j (Path.set_diffusion p d).

Definition read_drift (mp : MultiPath) (j i : nat) : result float :=
  p <- at_ mp j ;; at_ (Path.drift p) i.

Definition read_diffusion (mp : MultiPath) (j i : nat) : result float :=
  p <- at_ mp j ;; at_ (Path.diffusion p) i.
End MultiPath.

(** Modelled from the spec: Sample (ql/MonteCarlo/sample.hpp is not part
    of the sources at hand), a value with its weight. *)
Record Sample (T : Type) : Type := mkSample {
  value : T;
  weight : float
}.
Arguments mkSample {T} value weight.
Arguments value {T} _.
Arguments weight {T} _.

(** ** The collaborators *)

(** Modelled from the spec: the diffusion process of one asset
    (ql/diffusionprocess.hpp is not part of the sources at hand) reports
    its initial level, its drift rate at a time and level, and its
    variance over an interval; the three are the calls [x0()],
    [drift(t, x)] and [variance(t, x, dt)] of [next]. *)
Module DiffusionProcess.
Record t : Type := mk {
  x0 : float;
  drift : Time -> float -> float;
  variance : Time -> float -> Time -> float
}.
End DiffusionProcess.

(** The template parameter SG: a sequence generator reports its
    dimension ([dimension()]) and hands out one weighted sequence per
    call ([nextSequence()]), advancing its state. *)
Class SequenceGenerator (SG : Type) : Type := {
  dimension : SG -> Size.t;
  nextSequence : SG -> Sample Array * SG
}.

(** What the generator takes from the rest of the library, as
    parameters: the exponential behind QL_EXP, the covariance square
    root [matrixSqrt] (the spec's factorization routine), and the
    content of a freshly allocated array. *)
Class Library : Type := {
  QL_EXP : float -> float;
  matrixSqrt : Matrix -> Matrix;
  unspecified : float
}.

(** ** The generator *)

Module MultiPathGenerator.

Record t (SG : Type) : Type := mk {
  diffusionProcs_ : list DiffusionProcess.t;
  numAssets_ : Size.t;
  sqrtCovariance_ : Matrix;
  generator_ : SG;
  next_ : Sample MultiPath      (* mutable: overwritten by every call *)
}.
Arguments mk {SG} _ _ _ _ _.
Arguments diffusionProcs_ {SG} _.
Arguments numAssets_ {SG} _.
Arguments sqrtCovariance_ {SG} _.
Arguments generator_ {SG} _.
Arguments next_ {SG} _.

Section WithCollaborators.
Context `{Library} {SG : Type} `{SequenceGenerator SG}.

Definition dimension_message (dim numAssets numSteps : Size.t) : string :=
  ("(2) MultiPathGenerator's dimension (" +:+ pretty dim +:+
   ") is not equal to (" +:+ pretty numAssets +:+ " * " +:+
   pretty numSteps +:+
   ") the number of assets times the number of time steps")%string.

(** Lines 98-99: [next_.value[j].drift()[i] =
    drifts[j] * next_.value[j].timeGrid().dt(i)]. *)
Definition prefill_drift (drifts : Array) (j i : nat) (mp : MultiPath)
    : result MultiPath :=
  d <- at_ drifts j ;;
  p <- at_ mp j ;;
  dt <- TimeGrid.dt (Path.timeGrid p) i ;;
  MultiPath.write_drift mp j i (d * dt)%float.

(** The constructor, lines 66-102: the member initialisers, the four
    QL_REQUIRE checks in their order, then the drift pre-fill. *)
Definition MultiPathGenerator
    (diffusionProcs : list DiffusionProcess.t) (drifts : Array)
    (covariance : Matrix) (times : TimeGrid) (generator : SG)
    : result (t SG) :=
  let numAssets := Size.of_nat (rows covariance) in
  let sqrtCovariance := matrixSqrt covariance in
  let value0 := MultiPath.make unspecified (rows covariance) times in
  let numSteps := Size.sub (TimeGrid.size times) 1%N in
  _ <- QL_REQUIRE (dimension generator =? Size.mul numAssets numSteps)%N
         (dimension_message (dimension generator) numAssets numSteps) ;;
  _ <- QL_REQUIRE (Size.of_nat (length drifts) =? numAssets)%N
         "MultiPathGenerator covariance and average do not have the same size" ;;
  _ <- QL_REQUIRE (Size.of_nat (columns sqrtCovariance) =? numAssets)%N
         "MultiPathGenerator covariance is not a square matrix" ;;
  _ <- QL_REQUIRE (1 <? TimeGrid.size times)%N
         "MultiPathGenerator: no times given" ;;
  value1 <- for_range 0 (Size.to_nat numAssets)
              (fun j => for_range 0 (Size.to_nat numSteps)
                          (prefill_drift drifts j))
              value0 ;;
  Ok (mk diffusionProcs numAssets sqrtCovariance generator
         (mkSample value1 1%float)).

(** Lines 134-138: [temp = sqrtCovariance_ * temp], then components 0
    and 1 divided by the norm of the first two entries of rows 0 and 1. *)
Definition correlate (S : Matrix) (temp : Array) : result Array :=
  temp <- Matrix_mul_Array S temp ;;
  t0 <- at_ temp 0 ;;
  s00 <- Matrix_at S 0 0 ;;
  s01 <- Matrix_at S 0 1 ;;
  temp <- store temp 0 (t0 / QL_SQRT (s00 * s00 + s01 * s01))%float ;;
  t1 <- at_ temp 1 ;;
  s10 <- Matrix_at S 1 0 ;;
  s11 <- Matrix_at S 1 1 ;;
  store temp 1 (t1 / QL_SQRT (s10 * s10 + s11 * s11))%float.

Definition drift_increment (proc : DiffusionProcess.t) (t dt : Time)
    (level : float) : float :=
  (dt * DiffusionProcess.drift proc t level)%float.

Definition diffusion_increment (proc : DiffusionProcess.t) (t dt : Time)
    (level shock : float) : float :=
  ((- shock) * QL_SQRT (DiffusionProcess.variance proc t level dt))%float.

(** Lines 140-143, the body of the loop over the assets. *)
Definition evolve (procs : list DiffusionProcess.t) (i : nat)
    (t dt : Time) (temp : Array) (j : nat) (st : Array * MultiPath)
    : result (Array * MultiPath) :=
  proc <- at_ procs j ;;
  a <- at_ st.1 j ;;
  mp <- MultiPath.write_drift st.2 j i (drift_increment proc t dt a) ;;
  shock <- at_ temp j ;;
  mp <- MultiPath.write_diffusion mp j i
          (diffusion_increment proc t dt a shock) ;;
  d <- MultiPath.read_drift mp j i ;;
  f <- MultiPath.read_diffusion mp j i ;;
  asset <- store st.1 j (a * QL_EXP (d + f))%float ;;
  Ok (asset, mp).

(** [Size offset = i*numAssets_]. *)
Definition offset (g : t SG) (i : nat) : nat :=
  Size.to_nat (Size.mul (N.of_nat i) (numAssets_ g)).

(** Lines 125-144, the body of the loop over the time steps; the state
    is [asset], [temp] and [next_.value].  ([sqrt_dt] is computed and
    never read.) *)
Definition step (g : t SG) (sequence_ : Sample Array) (timeGrid : TimeGrid)
    (i : nat) (st : Array * Array * MultiPath)
    : result (Array * Array * MultiPath) :=
  let n := Size.to_nat (numAssets_ g) in
  t <- at_ timeGrid (i + 1) ;;
  dt <- TimeGrid.dt timeGrid i ;;
  temp <- Array_copy (value sequence_) (offset g i) n st.1.2 ;;
  temp <- correlate (sqrtCovariance_ g) temp ;;
  am <- for_range 0 n (evolve (diffusionProcs_ g) i t dt temp)
          (st.1.1, st.2) ;;
  Ok (am.1, temp, am.2).

(** Lines 116-118: [asset[j] = diffusionProcs_[j]->x0()]. *)
Definition initial_level (procs : list DiffusionProcess.t) (j : nat)
    (asset : Array) : result Array :=
  proc <- at_ procs j ;; store asset j (DiffusionProcess.x0 proc).

(** [next], lines 106-148, on one drawn sequence.  The bound
    [next_.value[0].size()] of the loop over the steps is read once:
    the stores of the loop never change a length. *)
Definition next_path (g : t SG) (sequence_ : Sample Array)
    : result (Sample MultiPath) :=
  let n := Size.to_nat (numAssets_ g) in
  let asset := replicate n unspecified in
  let temp := replicate n unspecified in
  asset <- for_range 0 n (initial_level (diffusionProcs_ g)) asset ;;
  path0 <- at_ (value (next_ g)) 0 ;;
  let timeGrid := Path.timeGrid path0 in
  st <- for_range 0 (Path.size path0) (step g sequence_ timeGrid)
          (asset, temp, value (next_ g)) ;;
  Ok (mkSample st.2 (weight sequence_)).

(** [next]: draws a sequence, overwrites [next_] and returns it. *)
Definition next (g : t SG) : result (Sample MultiPath * t SG) :=
  let drawn := nextSequence (generator_ g) in
  path <- next_path g drawn.1 ;;
  Ok (path,
      mk (diffusionProcs_ g) (numAssets_ g) (sqrtCovariance_ g) drawn.2 path).

(** [antithetic], lines 151-159: [return next();]. *)
Definition antithetic (g : t SG) : result (Sample MultiPath * t SG) :=
  next g.

End WithCollaborators.
End MultiPathGenerator.

(** ** The legacy generator *)

(** The template parameter RAG: a random-array generator is built from
    the covariance and a seed ([RAG(covariance, seed)]) and hands out
    one weighted array per call ([next()]), advancing its state. *)
Class RandomArrayGenerator (RAG : Type) : Type := {
  RAG_make : Matrix -> Z -> RAG;
  RAG_next : RAG -> Sample Array * RAG
}.

(** What the legacy constructor takes from the rest of the library, as
    parameters: the diagonal of a matrix ([Matrix::diagonal()]) and the
    printing of a double ([DoubleFormatter::toString]). *)
Class LegacyLibrary : Type := {
  diagonal : Matrix -> Array;
  DoubleFormatter_toString : float -> string
}.

(** A constructor whose member initialisers allocate a std::vector
    either ends in std::length_error, thrown by the allocation, or runs
    its body. *)
Inductive construction (A : Type) : Type :=
| LengthError
| Body (r : result A).
Arguments LengthError {A}.
Arguments Body {A} r.

Module MultiPathGenerator_old.

Record t (RAG : Type) : Type := mk {
  numAssets_ : Size.t;
  rndArrayGen_ : RAG;
  next_ : Sample MultiPath;     (* mutable: overwritten by every call *)
  timeDelays_ : list float
}.
Arguments mk {RAG} _ _ _ _.
Arguments numAssets_ {RAG} _.
Arguments rndArrayGen_ {RAG} _.
Arguments next_ {RAG} _.
Arguments timeDelays_ {RAG} _.

Section WithCollaborators.
Context `{Library} `{LegacyLibrary} {RAG : Type} `{RandomArrayGenerator RAG}.

Definition later_message (i : nat) (previous current : float) : string :=
  ("MultiPathGenerator_old: time(" +:+ pretty (N.of_nat (i - 1)) +:+ ")=" +:+
   DoubleFormatter_toString previous +:+ " is later than time(" +:+
   pretty (N.of_nat i) +:+ ")=" +:+ DoubleFormatter_toString current)%string.

(** Lines 253-260, the body of the loop over the grid points from 1 on:
    [QL_REQUIRE(times[i] >= times[i-1], ...)] and
    [timeDelays_[i-1] = times[i] - times[i-1]]. *)
Definition check_time (times : TimeGrid) (i : nat) (timeDelays : list float)
    : result (list float) :=
  current <- at_ times i ;;
  previous <- at_ times (i - 1) ;;
  _ <- QL_REQUIRE (previous <=? current)%float
         (later_message i previous current) ;;
  store timeDelays (i - 1) (current - previous)%float.

(** Line 267: [next_.value[j].drift()[i] = drifts[j] * timeDelays_[i]]. *)
Definition fill_drift (drifts : Array) (timeDelays : list float) (j i : nat)
    (mp : MultiPath) : result MultiPath :=
  d <- at_ drifts j ;;
  delay <- at_ timeDelays i ;;
  MultiPath.write_drift mp j i (d * delay)%float.

(** Lines 263-269, the body of the loop over the assets:
    [QL_REQUIRE(variances[j]>=0, ...)], then the drifts of asset [j]. *)
Definition fill_asset (drifts variances : Array) (timeDelays : list float)
    (count : nat) (j : nat) (mp : MultiPath) : result MultiPath :=
  v <- at_ variances j ;;
  _ <- QL_REQUIRE (0 <=? v)%float "MultiPathGenerator_old: negative variance" ;;
  for_range 0 count (fill_drift drifts timeDelays j) mp.

(** The constructor on a time grid, lines 234-270.  The initialiser
    [timeDelays_(times.size()-1)] allocates a vector of
    times.size() - 1 zeros: for an empty grid that is the largest
    std::size_t, more than a vector holds, and the allocation throws;
    for any other grid it is less than the size of the grid. *)
Definition MultiPathGenerator_old
    (drifts : Array) (covariance : Matrix) (times : TimeGrid) (seed : Z)
    : construction (t RAG) :=
  let numAssets := Size.of_nat (rows covariance) in
  let rndArrayGen := RAG_make covariance seed in
  let value0 := MultiPath.make unspecified (rows covariance) times in
  let numSteps := Size.sub (TimeGrid.size times) 1%N in
  match times with
  | [] => LengthError
  | _ :: _ =>
      Body
        (let timeDelays0 := replicate (Size.to_nat numSteps) 0%float in
         _ <- QL_REQUIRE (Size.of_nat (length drifts) =? numAssets)%N
                "MultiPathGenerator_old covariance and average do not have the same size" ;;
         _ <- QL_REQUIRE (1 <? TimeGrid.size times)%N
                "MultiPathGenerator_old: no times given" ;;
         first <- at_ times 0 ;;
         _ <- QL_REQUIRE (0 <=? first)%float
                ("MultiPathGenerator_old: first time(" +:+
                 DoubleFormatter_toString first +:+
                 ") must be non negative")%string ;;
         let variances := diagonal covariance in
         timeDelays <- for_range 1 (Size.to_nat (TimeGrid.size times) - 1)
                         (check_time times) timeDelays0 ;;
         value1 <- for_range 0 (Size.to_nat numAssets)
                     (fill_asset drifts variances timeDelays
                        (Size.to_nat numSteps))
                     value0 ;;
         Ok (mk numAssets rndArrayGen (mkSample value1 1%float) timeDelays))
  end.

(** Lines 281-284, the body of the loop over the assets:
    [next_.value[j].diffusion()[i] =
     randomExtraction.value[j] * QL_SQRT(timeDelays_[i])]. *)
Definition scatter (timeDelays : list float) (randomExtraction : Array)
    (i j : nat) (mp : MultiPath) : result MultiPath :=
  x <- at_ randomExtraction j ;;
  delay <- at_ timeDelays i ;;
  MultiPath.write_diffusion mp j i (x * QL_SQRT delay)%float.

(** Lines 279-284, the body of the loop over the steps; the state is
    the random-array generator, [next_.weight] and [next_.value]. *)
Definition draw_step (g : t RAG) (i : nat) (st : RAG * float * MultiPath)
    : result (RAG * float * MultiPath) :=
  let drawn := RAG_next st.1.1 in
  let weight := (st.1.2 * weight drawn.1)%float in
  mp <- for_range 0 (Size.to_nat (numAssets_ g))
          (scatter (timeDelays_ g) (value drawn.1) i) st.2 ;;
  Ok (drawn.2, weight, mp).

(** [next], lines 272-287.  The bound [next_.value[0].size()] is read
    once: the stores of the loop never change a length. *)
Definition next (g : t RAG) : result (Sample MultiPath * t RAG) :=
  path0 <- at_ (value (next_ g)) 0 ;;
  st <- for_range 0 (Path.size path0) (draw_step g)
          (rndArrayGen_ g, 1%float, value (next_ g)) ;;
  let path := mkSample st.2 st.1.2 in
  Ok (path, mk (numAssets_ g) st.1.1 path (timeDelays_ g)).

(** [antithetic], lines 195-196. *)
Definition antithetic (g : t RAG) : result (Sample MultiPath * t RAG) :=
  Err (Error "old framework doesn't support antithetic here").

End WithCollaborators.
End MultiPathGenerator_old.

(** ** What the statements observe *)

(** The part of a multi-path that no store changes: per asset, the time
    grid and the lengths of the two increment arrays. *)
Definition shape (mp : MultiPath) : list (list float * nat * nat) :=
  map (fun p => (Path.timeGrid p, length (Path.drift p),
                 length (Path.diffusion p))) mp.

(** [n] is a container size that std::size_t holds. *)
Definition representable (n : nat) : Prop := (N.of_nat n < Size.modulus)%N.

(** Following the spec's words (4.1), for comparison with [correlate]:
    "multiply the draw block by the correlation factor S, then divide
    each resulting component k by the Euclidean norm of row k of S". *)
Definition euclidean_norm (row : Array) : float :=
  match row with
  | [] => 0%float
  | x :: rest =>
      QL_SQRT (foldl (fun acc y => (acc + y * y)%float) (x * x)%float rest)
  end.

Definition CorrelatedStepTransform (S : Matrix) (draw : Array)
    : result Array :=
  v <- Matrix_mul_Array S draw ;;
  Ok (zip_with (fun x row => (x / euclidean_norm row)%float) v S).

Section Trajectory.
Context `{Library} {SG : Type} `{SequenceGenerator SG}.
Import MultiPathGenerator.

Variable g : MultiPathGenerator.t SG.
Variable sequence_ : Sample Array.

(** The number of assets and of steps [next] loops over, and the time
    grid it reads: [numAssets_], [next_.value[0].size()] and
    [next_.value[0].timeGrid()]. *)
Definition assets : nat := Size.to_nat (numAssets_ g).

Definition steps : nat :=
  match value (next_ g) with
  | [] => 0
  | p :: _ => Path.size p
  end.

Definition grid : TimeGrid :=
  match value (next_ g) with
  | [] => []
  | p :: _ => Path.timeGrid p
  end.

(** The block of the drawn sequence that step [i] copies into [temp]. *)
Definition draw_block (i : nat) : Array :=
  take assets (drop (offset g i) (value sequence_)).

(** The shock vector of step [i]: [temp] after lines 129-138 of that
    step.  [temp] is one array reused from step to step. *)
Fixpoint shock (i : nat) : result Array :=
  prev <- match i with
          | O => Ok (replicate assets unspecified)
          | S i' => shock i'
          end ;;
  temp <- Array_copy (value sequence_) (offset g i) assets prev ;;
  correlate (sqrtCovariance_ g) temp.

Definition previous_temp (i : nat) : result Array :=
  match i with
  | O => Ok (replicate assets unspecified)
  | S i' => shock i'
  end.

(** The level of asset [j] before step [i]: the initial value of its
    process, multiplied after each step by the exponential of the
    step's two increments. *)
Fixpoint level (j i : nat) : result float :=
  match i with
  | O => proc <- at_ (diffusionProcs_ g) j ;; Ok (DiffusionProcess.x0 proc)
  | S i' =>
      l <- level j i' ;;
      proc <- at_ (diffusionProcs_ g) j ;;
      t <- at_ grid (i' + 1) ;;
      dt <- TimeGrid.dt grid i' ;;
      temp <- shock i' ;;
      s <- at_ temp j ;;
      Ok (l * QL_EXP (drift_increment proc t dt l +
                      diffusion_increment proc t dt l s))%float
  end.

(** The two increments of asset [j] at step [i], as stored in [mp]:
    dt * drift(t, level) and -shock[j] * sqrt(variance(t, level, dt)),
    at t = timeGrid[i+1] and dt = timeGrid.dt(i). *)
Definition increments (j i : nat) (mp : MultiPath) : Prop :=
  exists proc t dt temp s l,
    diffusionProcs_ g !! j = Some proc /\
    grid !! (i + 1) = Some t /\ TimeGrid.dt grid i = Ok dt /\
    shock i = Ok temp /\ temp !! j = Some s /\
    level j i = Ok l /\
    MultiPath.read_drift mp j i =
      Ok (dt * DiffusionProcess.drift proc t l)%float /\
    MultiPath.read_diffusion mp j i =
      Ok ((- s) * QL_SQRT (DiffusionProcess.variance proc t l dt))%float.

(** A state on which [next] stays inside every container, for two
    assets or more: one process and one path per asset, a square
    factor, increment arrays of one length with a grid point after
    each step, and a drawn sequence with a block per step. *)
Record well_formed : Prop := {
  wf_assets : 2 <= assets;
  wf_procs : assets <= length (diffusionProcs_ g);
  wf_rows : length (sqrtCovariance_ g) = assets;
  wf_columns : Forall (fun r : list float => length r = assets)
                 (sqrtCovariance_ g);
  wf_paths : assets <= length (value (next_ g));
  wf_arrays : Forall (fun s : list float * nat * nat =>
                        s.1.2 = steps /\ s.2 = steps)
                (shape (value (next_ g)));
  wf_grid : steps < length grid;
  wf_sequence : steps * assets <= length (value sequence_);
  wf_representable : representable (length (value sequence_))
}.

End Trajectory.

(** The results of the first [calls] calls of [next]. *)
Fixpoint paths `{Library} {SG : Type} `{SequenceGenerator SG}
    (calls : nat) (g : MultiPathGenerator.t SG)
    : list (result (Sample MultiPath)) :=
  match calls with
  | O => []
  | S calls' =>
      match MultiPathGenerator.next g with
      | Ok r => Ok r.1 :: paths calls' r.2
      | Err e => [Err e]
      end
  end.

(** The sequences drawn by the first [calls] calls. *)
Fixpoint draws {SG : Type} `{SequenceGenerator SG}
    (calls : nat) (sg : SG) : list (Sample Array) :=
  match calls with
  | O => []
  | S calls' => (nextSequence sg).1 :: draws calls' (nextSequence sg).2
  end.

(** ** What the statements on the legacy generator observe *)

(** The grid never steps back: [times[i+1] >= times[i]] as the source
    compares doubles. *)
Definition ordered (times : TimeGrid) : Prop :=
  forall i previous current,
    times !! i = Some previous -> times !! S i = Some current ->
    (previous <=? current)%float = true.

(** The first [n] entries of [v] pass [v[j] >= 0]. *)
Definition nonnegative (v : Array) (n : nat) : Prop :=
  forall j x, j < n -> v !! j = Some x -> (0 <=? x)%float = true.

(** The arguments the legacy constructor asks for in its QL_REQUIREs,
    lines 243-265. *)
Definition accepted `{LegacyLibrary}
    (drifts : Array) (covariance : Matrix) (times : TimeGrid) : Prop :=
  length drifts = rows covariance /\
  2 <= length times /\
  (exists first, times !! 0 = Some first /\ (0 <=? first)%float = true) /\
  ordered times /\
  nonnegative (diagonal covariance) (rows covariance).

Section LegacyTrajectory.
Context {RAG : Type} `{RandomArrayGenerator RAG}.

(** The arrays drawn by [k] calls of the random-array generator, and
    the generator after them. *)
Fixpoint arrays (k : nat) (rag : RAG) : list (Sample Array) :=
  match k with
  | O => []
  | S k' => (RAG_next rag).1 :: arrays k' (RAG_next rag).2
  end.

Fixpoint advanced (k : nat) (rag : RAG) : RAG :=
  match k with
  | O => rag
  | S k' => advanced k' (RAG_next rag).2
  end.

(** [next_.weight] after the arrays [drawn]: 1.0 multiplied by their
    weights, one after the other. *)
Definition compound_weight (drawn : list (Sample Array)) : float :=
  foldl (fun w s => (w * weight s)%float) 1%float drawn.

(** The number of assets and of steps the legacy [next] loops over. *)
Definition old_assets (g : MultiPathGenerator_old.t RAG) : nat :=
  Size.to_nat (MultiPathGenerator_old.numAssets_ g).

Definition old_steps (g : MultiPathGenerator_old.t RAG) : nat :=
  match value (MultiPathGenerator_old.next_ g) with
  | [] => 0
  | p :: _ => Path.size p
  end.

(** A state on which the legacy [next] stays inside every container:
    a path per asset and at least one, diffusion arrays and time delays
    that reach every step. *)
Record old_well_formed (g : MultiPathGenerator_old.t RAG) : Prop := {
  owf_first : 1 <= length (value (MultiPathGenerator_old.next_ g));
  owf_paths : old_assets g <= length (value (MultiPathGenerator_old.next_ g));
  owf_arrays : Forall (fun s : list float * nat * nat => old_steps g <= s.2)
                 (shape (value (MultiPathGenerator_old.next_ g)));
  owf_delays : old_steps g <= length (MultiPathGenerator_old.timeDelays_ g)
}.

(** The results of the first [calls] calls of the legacy [next]. *)
Fixpoint old_paths (calls : nat) (g : MultiPathGenerator_old.t RAG)
    : list (result (Sample MultiPath)) :=
  match calls with
  | O => []
  | S calls' =>
      match MultiPathGenerator_old.next g with
      | Ok r => Ok r.1 :: old_paths calls' r.2
      | Err e => [Err e]
      end
  end.

(** Where the loop over the grid points has arrived when it is about
    to check point [k]: the delays before that point are stored and the
    points before it are in order. *)
Definition delays_checked (times : TimeGrid) (size : nat) (k : nat)
    (timeDelays : list float) : Prop :=
  length timeDelays = size /\
  forall i, 1 <= i < k ->
    exists previous current,
      times !! (i - 1) = Some previous /\ times !! i = Some current /\
      (previous <=? current)%float = true /\
      timeDelays !! (i - 1) = Some (current - previous)%float.

(** Where the legacy pre-fill has arrived when it is about to write
    [drift()[i]] of asset [j]. *)
Definition drifts_filled (drifts : Array) (timeDelays : list float)
    (mp0 : MultiPath) (m j i : nat) (mp : MultiPath) : Prop :=
  shape mp = shape mp0 /\
  (forall j' i', MultiPath.read_diffusion mp j' i' =
                 MultiPath.read_diffusion mp0 j' i') /\
  forall j' i', (j' < j /\ i' < m) \/ (j' = j /\ i' < i) ->
    exists d delay, drifts !! j' = Some d /\ timeDelays !! i' = Some delay /\
      MultiPath.read_drift mp j' i' = Ok (d * delay)%float.

(** Where the loop over the assets of one step of the legacy [next]
    has arrived when it is about to handle asset [j] at step [i]. *)
Definition scattered (timeDelays : list float) (randomExtraction : Array)
    (mp0 : MultiPath) (i j : nat) (mp : MultiPath) : Prop :=
  shape mp = shape mp0 /\
  (forall j' i', MultiPath.read_drift mp j' i' =
                 MultiPath.read_drift mp0 j' i') /\
  (forall j', j' < j ->
     exists x delay, randomExtraction !! j' = Some x /\
       timeDelays !! i = Some delay /\
       MultiPath.read_diffusion mp j' i = Ok (x * QL_SQRT delay)%float) /\
  (forall j' i', i' <> i \/ j <= j' ->
     MultiPath.read_diffusion mp j' i' = MultiPath.read_diffusion mp0 j' i').

(** Where the loop over the steps of the legacy [next] has arrived
    when it is about to take step [i]. *)
Definition drawn_steps (g : MultiPathGenerator_old.t RAG) (i : nat)
    (st : RAG * float * MultiPath) : Prop :=
  let rag := MultiPathGenerator_old.rndArrayGen_ g in
  let mp0 := value (MultiPathGenerator_old.next_ g) in
  st.1.1 = advanced i rag /\
  st.1.2 = compound_weight (arrays i rag) /\
  shape st.2 = shape mp0 /\
  (forall j' i', MultiPath.read_drift st.2 j' i' =
                 MultiPath.read_drift mp0 j' i') /\
  (forall j i', j < old_assets g -> i' < i ->
     exists s x delay,
       arrays i rag !! i' = Some s /\ value s !! j = Some x /\
       MultiPathGenerator_old.timeDelays_ g !! i' = Some delay /\
       MultiPath.read_diffusion st.2 j i' = Ok (x * QL_SQRT delay)%float).

(** What call number [c] of the legacy [next] returns, counted from the
    state [g]: the arrays of its steps are those the random-array
    generator hands out after the [c * steps] arrays of the calls
    before it. *)
Definition old_call (g : MultiPathGenerator_old.t RAG) (c : nat)
    (path : Sample MultiPath) : Prop :=
  let drawn := arrays (old_steps g)
                 (advanced (c * old_steps g) (MultiPathGenerator_old.rndArrayGen_ g)) in
  weight path = compound_weight drawn /\
  shape (value path) = shape (value (MultiPathGenerator_old.next_ g)) /\
  (forall j i, MultiPath.read_drift (value path) j i =
               MultiPath.read_drift (value (MultiPathGenerator_old.next_ g)) j i) /\
  (forall j i, j < old_assets g -> i < old_steps g ->
     exists s x delay,
       drawn !! i = Some s /\ value s !! j = Some x /\
       MultiPathGenerator_old.timeDelays_ g !! i = Some delay /\
       MultiPath.read_diffusion (value path) j i =
         Ok (x * QL_SQRT delay)%float).

End LegacyTrajectory.

(** ** Loop invariants and relations used in the proofs *)

(** [next] holds no QL_REQUIRE: a call that does not return has left a
    container. *)
Definition leaves_container {A : Type} (r : result A) : Prop :=
  forall e, r = Err e -> e = OutOfRange.

(** Two generators that differ at most in the entries of [next_]. *)
Definition alike {SG : Type} (g1 g2 : MultiPathGenerator.t SG) : Prop :=
  MultiPathGenerator.diffusionProcs_ g1 = MultiPathGenerator.diffusionProcs_ g2 /\
  MultiPathGenerator.numAssets_ g1 = MultiPathGenerator.numAssets_ g2 /\
  MultiPathGenerator.sqrtCovariance_ g1 = MultiPathGenerator.sqrtCovariance_ g2 /\
  MultiPathGenerator.generator_ g1 = MultiPathGenerator.generator_ g2 /\
  shape (value (MultiPathGenerator.next_ g1)) =
    shape (value (MultiPathGenerator.next_ g2)).

Section Invariants.
Context `{Library} {SG : Type} `{SequenceGenerator SG}.
Import MultiPathGenerator.

(** Where the pre-fill has arrived when it is about to write
    [drift()[i]] of asset [j]: the entries before that one hold
    [drifts[j'] * dt(i')], and no length has changed. *)
Definition prefilled (drifts : list float) (times : list float)
    (mp0 : list Path.t) (m j i : nat) (mp : list Path.t) : Prop :=
  shape mp = shape mp0 /\
  forall j' i', (j' < j /\ i' < m) \/ (j' = j /\ i' < i) ->
    exists d dt, drifts !! j' = Some d /\ TimeGrid.dt times i' = Ok dt /\
      MultiPath.read_drift mp j' i' = Ok (d * dt)%float.

(** Where the loop over the assets has arrived when it is about to
    handle asset [j] at step [i]: assets before [j] have their two
    increments of step [i] stored and their level advanced, nothing
    else has changed. *)
Definition evolved (procs : list DiffusionProcess.t) (i : nat)
    (t dt : float) (temp : list float)
    (asset0 : list float) (mp0 : list Path.t) (j : nat)
    (st : list float * list Path.t) : Prop :=
  shape st.2 = shape mp0 /\ length st.1 = length asset0 /\
  (forall j', j' < j ->
     exists proc a s,
       procs !! j' = Some proc /\ asset0 !! j' = Some a /\
       temp !! j' = Some s /\
       MultiPath.read_drift st.2 j' i = Ok (drift_increment proc t dt a) /\
       MultiPath.read_diffusion st.2 j' i =
         Ok (diffusion_increment proc t dt a s) /\
       st.1 !! j' = Some (a * QL_EXP (drift_increment proc t dt a +
                                      diffusion_increment proc t dt a s))%float) /\
  (forall j', j <= j' -> st.1 !! j' = asset0 !! j') /\
  (forall j' i', i' <> i \/ j <= j' ->
     MultiPath.read_drift st.2 j' i' = MultiPath.read_drift mp0 j' i' /\
     MultiPath.read_diffusion st.2 j' i' = MultiPath.read_diffusion mp0 j' i').

(** Where the loop over the steps has arrived when it is about to take
    step [i]: [temp] is what the previous step left, [asset] holds the
    levels before step [i], and the increments of the earlier steps
    are stored. *)
Definition stepped (g : MultiPathGenerator.t SG) (sequence_ : Sample Array)
    (mp0 : list Path.t) (i : nat)
    (st : list float * list float * list Path.t) : Prop :=
  shape st.2 = shape mp0 /\
  previous_temp g sequence_ i = Ok st.1.2 /\
  (forall j, j < assets g ->
     exists l, level g sequence_ j i = Ok l /\ st.1.1 !! j = Some l) /\
  (forall j i', j < assets g -> i' < i -> increments g sequence_ j i' st.2).

End Invariants.
(** ** Concrete collaborators for the examples *)

Module Examples.

(** A truncated power series standing for the exponential. *)
Fixpoint exp_terms (count : nat) (k term acc x : float) : float :=
  match count with
  | O => acc
  | S count' =>
      let term' := (term * x / k)%float in
      exp_terms count' (k + 1)%float term' (acc + term')%float x
  end.

Definition exp_series (x : float) : float :=
  exp_terms 30 1%float 1%float 1%float x.

(** The square root of a diagonal covariance matrix (independent
    assets): the entrywise square root. *)
Definition diagonal_sqrt (covariance : Matrix) : Matrix :=
  map (map QL_SQRT) covariance.

#[export] Instance library : Library := {|
  QL_EXP := exp_series;
  matrixSqrt := diagonal_sqrt;
  unspecified := 0%float
|}.

(** A sequence generator that replays a tape of weighted sequences,
    moving the one it hands out to the end of the tape. *)
Record ReplaySG : Type := mkReplay {
  replay_dimension : Size.t;
  replay_tape : list (Sample Array)
}.

#[export] Instance replay : SequenceGenerator ReplaySG := {|
  dimension := replay_dimension;
  nextSequence sg :=
    match replay_tape sg with
    | [] => (mkSample [] 1%float, sg)
    | s :: rest => (s, mkReplay (replay_dimension sg) (rest ++ [s]))
    end
|}.

(** Geometric Brownian motion started at 100 with drift rate [mu] and
    volatility [sigma] (both of the log-level). *)
Definition gbm (mu sigma : float) : DiffusionProcess.t :=
  {| DiffusionProcess.x0 := 100%float;
     DiffusionProcess.drift := fun _ _ => mu;
     DiffusionProcess.variance := fun _ _ dt => (sigma * sigma * dt)%float |}.

(** Two assets over the grid 0, 1, 3; the first draw is (1, 1), (2, 3)
    with weight 0.5. *)
Definition two_assets : result (MultiPathGenerator.t ReplaySG) :=
  MultiPathGenerator.MultiPathGenerator
    [gbm 0.5 1; gbm 0 2] [0.25; 0.75]%float
    [[1; 0]; [0; 4]]%float [0; 1; 3]%float
    (mkReplay 4 [mkSample [1; 1; 2; 3]%float 0.5%float]).

(** Three independent assets of variance 4 and one step. *)
Definition three_assets : result (MultiPathGenerator.t ReplaySG) :=
  MultiPathGenerator.MultiPathGenerator
    [gbm 0 1; gbm 0 1; gbm 0 1] [0; 0; 0]%float
    [[4; 0; 0]; [0; 4; 0]; [0; 0; 4]]%float [0; 1]%float
    (mkReplay 3 [mkSample [1; 1; 1]%float 0.5%float]).

(** One asset and one step. *)
Definition single_asset : result (MultiPathGenerator.t ReplaySG) :=
  MultiPathGenerator.MultiPathGenerator
    [gbm 0 1] [0]%float [[4]]%float [0; 1]%float
    (mkReplay 1 [mkSample [1]%float 0.5%float]).

(** Two assets, the first of variance zero: row 0 of the square root
    is the zero row. *)
Definition zero_row : result (MultiPathGenerator.t ReplaySG) :=
  MultiPathGenerator.MultiPathGenerator
    [gbm 0 1; gbm 0 1] [0; 0]%float
    [[0; 0]; [0; 4]]%float [0; 1]%float
    (mkReplay 2 [mkSample [1; 1]%float 0.5%float]).

(** Two assets over the grid 0, 2, 1, whose second step goes back in
    time. *)
Definition decreasing_grid : result (MultiPathGenerator.t ReplaySG) :=
  MultiPathGenerator.MultiPathGenerator
    [gbm 0 1; gbm 0 1] [0; 0]%float
    [[4; 0]; [0; 4]]%float [0; 2; 1]%float
    (mkReplay 4 [mkSample [1; 1; 1; 1]%float 0.5%float]).

(** The generators the constructor builds from the first, the third
    and the fourth of these. *)
Definition two_assets_generator : MultiPathGenerator.t ReplaySG :=
  MultiPathGenerator.mk [gbm 0.5 1; gbm 0 2] 2%N [[1; 0]; [0; 2]]%float
    (mkReplay 4 [mkSample [1; 1; 2; 3]%float 0.5%float])
    (mkSample [Path.mk [0; 1; 3]%float [0.25; 0.5]%float [0; 0]%float;
               Path.mk [0; 1; 3]%float [0.75; 1.5]%float [0; 0]%float]
              1%float).

Definition single_asset_generator : MultiPathGenerator.t ReplaySG :=
  MultiPathGenerator.mk [gbm 0 1] 1%N [[2]]%float
    (mkReplay 1 [mkSample [1]%float 0.5%float])
    (mkSample [Path.mk [0; 1]%float [0]%float [0]%float] 1%float).

Definition zero_row_generator : MultiPathGenerator.t ReplaySG :=
  MultiPathGenerator.mk [gbm 0 1; gbm 0 1] 2%N [[0; 0]; [0; 2]]%float
    (mkReplay 2 [mkSample [1; 1]%float 0.5%float])
    (mkSample [Path.mk [0; 1]%float [0]%float [0]%float;
               Path.mk [0; 1]%float [0]%float [0]%float] 1%float).

(** [next] on a constructed generator. *)
Definition first_path (constructed : result (MultiPathGenerator.t ReplaySG))
    : result (Sample MultiPath) :=
  g <- constructed ;;
  r <- MultiPathGenerator.next g ;;
  Ok r.1.

End Examples.

(** ** Further concrete collaborators *)

Module MoreExamples.
Import Examples.

(** A sequence generator whose every sequence has the generator's
    dimension: the k-th sequence repeats the value start + k, with
    weight 0.5. *)
Record CountingSG : Type := mkCounting {
  counting_dimension : Size.t;
  counting_value : float
}.

#[export] Instance counting : SequenceGenerator CountingSG := {|
  dimension := counting_dimension;
  nextSequence sg :=
    (mkSample (replicate (Size.to_nat (counting_dimension sg))
                 (counting_value sg)) 0.5%float,
     mkCounting (counting_dimension sg) (counting_value sg + 1)%float)
|}.

(** The library of the examples with NaN in every fresh array. *)
Definition library_nan : Library := {|
  QL_EXP := exp_series;
  matrixSqrt := diagonal_sqrt;
  unspecified := nan
|}.

(** Two assets over the grid 0, 1, 3 on a counting generator. *)
Definition counted (L : Library) (drifts : Array)
    : result (MultiPathGenerator.t CountingSG) :=
  @MultiPathGenerator.MultiPathGenerator L CountingSG counting
    [gbm 0.5 1; gbm 0 2] drifts
    [[1; 0]; [0; 4]]%float [0; 1; 3]%float (mkCounting 4 1).

Definition counted_generator (fill : float) (d00 d01 d10 d11 : float)
    : MultiPathGenerator.t CountingSG :=
  MultiPathGenerator.mk [gbm 0.5 1; gbm 0 2] 2%N [[1; 0]; [0; 2]]%float
    (mkCounting 4 1)
    (mkSample [Path.mk [0; 1; 3]%float [d00; d01] [fill; fill];
               Path.mk [0; 1; 3]%float [d10; d11] [fill; fill]]
              1%float).

(** Two assets and a single process. *)
Definition short_of_processes : result (MultiPathGenerator.t ReplaySG) :=
  MultiPathGenerator.MultiPathGenerator
    [gbm 0 1] [0; 0]%float
    [[4; 0]; [0; 4]]%float [0; 1]%float
    (mkReplay 2 [mkSample [1; 1]%float 0.5%float]).

Definition short_generator : MultiPathGenerator.t ReplaySG :=
  MultiPathGenerator.mk [gbm 0 1] 2%N [[2; 0]; [0; 2]]%float
    (mkReplay 2 [mkSample [1; 1]%float 0.5%float])
    (mkSample [Path.mk [0; 1]%float [0]%float [0]%float;
               Path.mk [0; 1]%float [0]%float [0]%float] 1%float).

(** The diagonal of a matrix, as long as rows and columns last. *)
Fixpoint diagonal_from (k : nat) (m : Matrix) : Array :=
  match m with
  | [] => []
  | r :: m' =>
      match r !! k with
      | Some x => x :: diagonal_from (S k) m'
      | None => []
      end
  end.

(** The legacy parameters of the examples; doubles print as a mark. *)
#[export] Instance legacy : LegacyLibrary := {|
  diagonal := diagonal_from 0;
  DoubleFormatter_toString := fun _ => "#"%string
|}.

(** A random-array generator with one entry per row of the covariance:
    the k-th array repeats the value k, with weight 0.5. *)
Record CountingRAG : Type := mkCountingRAG {
  counting_size : nat;
  counting_entry : float
}.

#[export] Instance counting_arrays : RandomArrayGenerator CountingRAG := {|
  RAG_make covariance seed := mkCountingRAG (rows covariance) 1%float;
  RAG_next rag :=
    (mkSample (replicate (counting_size rag) (counting_entry rag)) 0.5%float,
     mkCountingRAG (counting_size rag) (counting_entry rag + 1)%float)
|}.

(** The legacy generator for two assets over the grid 0, 1, 3. *)
Definition legacy_two_assets
    : construction (MultiPathGenerator_old.t CountingRAG) :=
  MultiPathGenerator_old.MultiPathGenerator_old
    [0.25; 0.75]%float [[1; 0]; [0; 4]]%float [0; 1; 3]%float 7%Z.

Definition legacy_generator : MultiPathGenerator_old.t CountingRAG :=
  MultiPathGenerator_old.mk 2%N (mkCountingRAG 2 1)
    (mkSample [Path.mk [0; 1; 3]%float [0.25; 0.5]%float [0; 0]%float;
               Path.mk [0; 1; 3]%float [0.75; 1.5]%float [0; 0]%float]
              1%float)
    [1; 2]%float.

(** The legacy generator without assets over the grid 0, 1. *)
Definition legacy_no_assets
    : construction (MultiPathGenerator_old.t CountingRAG) :=
  MultiPathGenerator_old.MultiPathGenerator_old [] [] [0; 1]%float 7%Z.

Definition legacy_empty_generator : MultiPathGenerator_old.t CountingRAG :=
  MultiPathGenerator_old.mk 0%N (mkCountingRAG 0 1) (mkSample [] 1%float)
    [1]%float.

End MoreExamples.
(** * Properties *)

(** ** The error monad, reads, writes and loops *)

(** A quotient by zero is no finite number: it is NaN (for 0/0 and
    NaN/0) or an infinity. *)
Lemma quotient_by_zero (t : float) :
  is_nan (t / 0)%float = true \/ is_infinity (t / 0)%float = true.
Proof.
  unfold is_nan, is_infinity.
  rewrite !FloatAxioms.eqb_spec, FloatAxioms.abs_spec, FloatAxioms.div_spec.
  change (FloatOps.Prim2SF 0) with (SpecFloat.S754_zero false).
  change (FloatOps.Prim2SF infinity) with (SpecFloat.S754_infinity false).
  destruct (FloatOps.Prim2SF t) as [s|s| |s m e]; simpl; auto.
Qed.

Lemma bind_Ok {A B : Type} (m : result A) (k : A -> result B) (b : B) :
  bind m k = Ok b -> exists a, m = Ok a /\ k a = Ok b.
Proof. destruct m as [a|e]; simpl; [eauto | discriminate]. Qed.

Lemma bind_Ok_l {A B : Type} (m : result A) (k : A -> result B) (a : A) :
  m = Ok a -> bind m k = k a.
Proof. now intros ->. Qed.

Lemma at_Ok {A : Type} (l : list A) (i : nat) (x : A) :
  at_ l i = Ok x <-> l !! i = Some x.
Proof. unfold at_. destruct (l !! i); split; congruence. Qed.

Lemma at_in_range {A : Type} (l : list A) (i : nat) :
  i < length l -> exists x, at_ l i = Ok x.
Proof.
  intros Hi. destruct (lookup_lt_is_Some_2 l i Hi) as [x Hx].
  exists x. now apply at_Ok.
Qed.

Lemma store_Ok {A : Type} (l l' : list A) (i : nat) (x : A) :
  store l i x = Ok l' <-> i < length l /\ l' = <[i:=x]> l.
Proof. unfold store. case_decide; split; intros; simplify_eq; intuition congruence. Qed.

Lemma store_in_range {A : Type} (l : list A) (i : nat) (x : A) :
  i < length l -> store l i x = Ok (<[i:=x]> l).
Proof. intros. now apply store_Ok. Qed.

Ltac inv_result :=
  repeat match goal with
    | H : bind _ _ = Ok _ |- _ =>
        let a := fresh "a" in let Ha := fresh "Ha" in
        apply bind_Ok in H; destruct H as (a & Ha & H)
    | H : Ok _ = Ok _ |- _ => injection H as H
    | H : Err _ = Ok _ |- _ => discriminate H
    | H : store _ _ _ = Ok _ |- _ =>
        let Hlt := fresh "Hlt" in apply store_Ok in H; destruct H as [Hlt H]
    | H : at_ _ _ = Ok _ |- _ => apply at_Ok in H
    end.

(** A loop that returns has kept every invariant its body keeps. *)
Lemma for_range_invariant {St : Type} (P : nat -> St -> Prop)
    (body : nat -> St -> result St) (count : nat) :
  forall (lo : nat) (s s' : St),
    P lo s ->
    (forall k s1 s2, lo <= k < lo + count ->
       P k s1 -> body k s1 = Ok s2 -> P (S k) s2) ->
    for_range lo count body s = Ok s' ->
    P (lo + count) s'.
Proof.
  induction count as [|count IH]; intros lo s s' Hs Hbody Hrun; simpl in Hrun.
  - inv_result. subst. now rewrite Nat.add_0_r.
  - inv_result. rewrite <- Nat.add_succ_comm.
    eapply IH; [| |exact Hrun].
    + eapply Hbody; [lia|exact Hs|exact Ha].
    + intros k s1 s2 Hk. apply Hbody. lia.
Qed.

(** A loop whose body returns under an invariant returns. *)
Lemma for_range_returns {St : Type} (P : nat -> St -> Prop)
    (body : nat -> St -> result St) (count : nat) :
  forall (lo : nat) (s : St),
    P lo s ->
    (forall k s1, lo <= k < lo + count ->
       P k s1 -> exists s2, body k s1 = Ok s2 /\ P (S k) s2) ->
    exists s', for_range lo count body s = Ok s' /\ P (lo + count) s'.
Proof.
  induction count as [|count IH]; intros lo s Hs Hbody; simpl.
  - exists s. now rewrite Nat.add_0_r.
  - destruct (Hbody lo s) as (s2 & Hs2 & HP); [lia|exact Hs|].
    rewrite Hs2. simpl. rewrite <- Nat.add_succ_comm.
    apply IH; [exact HP|]. intros k s1 Hk. apply Hbody. lia.
Qed.

(** ** Sizes *)

Lemma Size_to_nat_of_nat_le (n : nat) : Size.to_nat (Size.of_nat n) <= n.
Proof.
  unfold Size.to_nat, Size.of_nat, Size.wrap.
  pose proof (N.Div0.mod_le (N.of_nat n) Size.modulus). lia.
Qed.

Lemma Size_of_nat_small (n : nat) :
  (N.of_nat n < Size.modulus)%N -> Size.of_nat n = N.of_nat n.
Proof. intros Hn. unfold Size.of_nat, Size.wrap. now apply N.mod_small. Qed.

Lemma Size_wrap_lt (n : N) : (Size.wrap n < Size.modulus)%N.
Proof. unfold Size.wrap. now apply N.mod_lt. Qed.

Lemma Size_sub_1 (a : Size.t) :
  (0 < a < Size.modulus)%N -> Size.sub a 1%N = (a - 1)%N.
Proof.
  intros Ha. unfold Size.sub, Size.wrap.
  replace (1 mod Size.modulus)%N with 1%N by reflexivity.
  replace (a + (Size.modulus - 1))%N with ((a - 1) + 1 * Size.modulus)%N
    by (unfold Size.modulus in *; lia).
  rewrite N.Div0.mod_add. apply N.mod_small. lia.
Qed.

Lemma Size_mul_small (a b : N) :
  (a * b < Size.modulus)%N -> Size.mul a b = (a * b)%N.
Proof. intros Hab. unfold Size.mul, Size.wrap. now apply N.mod_small. Qed.

(** ** Stores into a multi-path *)

Section Stores.
Implicit Types (mp : list Path.t) (x : float) (i j : nat).

Lemma write_drift_Ok mp mp' j i x :
  MultiPath.write_drift mp j i x = Ok mp' ->
  exists p, mp !! j = Some p /\ i < length (Path.drift p) /\
    mp' = <[j := Path.set_drift p (<[i:=x]> (Path.drift p))]> mp.
Proof.
  unfold MultiPath.write_drift. intros Hw. inv_result. subst. eauto.
Qed.

Lemma write_diffusion_Ok mp mp' j i x :
  MultiPath.write_diffusion mp j i x = Ok mp' ->
  exists p, mp !! j = Some p /\ i < length (Path.diffusion p) /\
    mp' = <[j := Path.set_diffusion p (<[i:=x]> (Path.diffusion p))]> mp.
Proof.
  unfold MultiPath.write_diffusion. intros Hw. inv_result. subst. eauto.
Qed.

Lemma shape_lookup mp j p :
  mp !! j = Some p ->
  shape mp !! j = Some (Path.timeGrid p, length (Path.drift p),
                        length (Path.diffusion p)).
Proof. intros Hp. unfold shape. now rewrite list_lookup_fmap, Hp. Qed.

Lemma shape_lookup_inv mp j s :
  shape mp !! j = Some s ->
  exists p, mp !! j = Some p /\
    s = (Path.timeGrid p, length (Path.drift p), length (Path.diffusion p)).
Proof.
  unfold shape. rewrite list_lookup_fmap. intros Hs.
  destruct (mp !! j) as [p|]; simpl in Hs; [|discriminate].
  exists p. split; congruence.
Qed.

Lemma shape_length mp : length (shape mp) = length mp.
Proof. unfold shape. apply length_fmap. Qed.

Lemma shape_insert_same mp j p p' :
  mp !! j = Some p ->
  Path.timeGrid p' = Path.timeGrid p ->
  length (Path.drift p') = length (Path.drift p) ->
  length (Path.diffusion p') = length (Path.diffusion p) ->
  shape (<[j:=p']> mp) = shape mp.
Proof.
  intros Hp Hg Hd Hf. unfold shape. rewrite list_fmap_insert.
  apply list_insert_id. rewrite list_lookup_fmap, Hp. simpl. congruence.
Qed.

Lemma write_drift_shape mp mp' j i x :
  MultiPath.write_drift mp j i x = Ok mp' -> shape mp' = shape mp.
Proof.
  intros (p & Hp & Hi & ->)%write_drift_Ok.
  apply (shape_insert_same mp j p); simpl; auto using length_insert.
Qed.

Lemma write_diffusion_shape mp mp' j i x :
  MultiPath.write_diffusion mp j i x = Ok mp' -> shape mp' = shape mp.
Proof.
  intros (p & Hp & Hi & ->)%write_diffusion_Ok.
  apply (shape_insert_same mp j p); simpl; auto using length_insert.
Qed.

Lemma write_drift_returns mp j i x s :
  shape mp !! j = Some s -> i < s.1.2 ->
  exists mp', MultiPath.write_drift mp j i x = Ok mp'.
Proof.
  intros (p & Hp & ->)%shape_lookup_inv Hi. simpl in Hi.
  unfold MultiPath.write_drift.
  rewrite (bind_Ok_l _ _ p) by now apply at_Ok.
  rewrite store_in_range by exact Hi. simpl.
  rewrite store_in_range by eauto using lookup_lt_Some. eauto.
Qed.

Lemma write_diffusion_returns mp j i x s :
  shape mp !! j = Some s -> i < s.2 ->
  exists mp', MultiPath.write_diffusion mp j i x = Ok mp'.
Proof.
  intros (p & Hp & ->)%shape_lookup_inv Hi. simpl in Hi.
  unfold MultiPath.write_diffusion.
  rewrite (bind_Ok_l _ _ p) by now apply at_Ok.
  rewrite store_in_range by exact Hi. simpl.
  rewrite store_in_range by eauto using lookup_lt_Some. eauto.
Qed.

Lemma at_insert {A : Type} (l : list A) (k k' : nat) (y : A) :
  k < length l ->
  at_ (<[k:=y]> l) k' = if decide (k' = k) then Ok y else at_ l k'.
Proof.
  intros Hk. unfold at_. case_decide as Hkk.
  - subst. now rewrite list_lookup_insert_eq.
  - now rewrite list_lookup_insert_ne by congruence.
Qed.

Lemma read_drift_write_drift mp mp' j i x j' i' :
  MultiPath.write_drift mp j i x = Ok mp' ->
  MultiPath.read_drift mp' j' i' =
    if decide (j' = j /\ i' = i) then Ok x else MultiPath.read_drift mp j' i'.
Proof.
  intros (p & Hp & Hi & ->)%write_drift_Ok. unfold MultiPath.read_drift.
  rewrite at_insert by eauto using lookup_lt_Some.
  destruct (decide (j' = j)) as [->|Hj]; simpl.
  - rewrite at_insert by exact Hi.
    rewrite (bind_Ok_l _ _ p) by now apply at_Ok.
    repeat case_decide; intuition congruence.
  - case_decide; [intuition congruence|reflexivity].
Qed.

Lemma read_diffusion_write_drift mp mp' j i x j' i' :
  MultiPath.write_drift mp j i x = Ok mp' ->
  MultiPath.read_diffusion mp' j' i' = MultiPath.read_diffusion mp j' i'.
Proof.
  intros (p & Hp & Hi & ->)%write_drift_Ok. unfold MultiPath.read_diffusion.
  rewrite at_insert by eauto using lookup_lt_Some.
  case_decide as Hj; [subst; simpl|reflexivity].
  now rewrite (bind_Ok_l _ _ p) by now apply at_Ok.
Qed.

Lemma read_diffusion_write_diffusion mp mp' j i x j' i' :
  MultiPath.write_diffusion mp j i x = Ok mp' ->
  MultiPath.read_diffusion mp' j' i' =
    if decide (j' = j /\ i' = i) then Ok x
    else MultiPath.read_diffusion mp j' i'.
Proof.
  intros (p & Hp & Hi & ->)%write_diffusion_Ok. unfold MultiPath.read_diffusion.
  rewrite at_insert by eauto using lookup_lt_Some.
  destruct (decide (j' = j)) as [->|Hj]; simpl.
  - rewrite at_insert by exact Hi.
    rewrite (bind_Ok_l _ _ p) by now apply at_Ok.
    repeat case_decide; intuition congruence.
  - case_decide; [intuition congruence|reflexivity].
Qed.

Lemma read_drift_write_diffusion mp mp' j i x j' i' :
  MultiPath.write_diffusion mp j i x = Ok mp' ->
  MultiPath.read_drift mp' j' i' = MultiPath.read_drift mp j' i'.
Proof.
  intros (p & Hp & Hi & ->)%write_diffusion_Ok. unfold MultiPath.read_drift.
  rewrite at_insert by eauto using lookup_lt_Some.
  case_decide as Hj; [subst; simpl|reflexivity].
  now rewrite (bind_Ok_l _ _ p) by now apply at_Ok.
Qed.

Lemma read_drift_in_range mp j i s :
  shape mp !! j = Some s -> i < s.1.2 ->
  exists x, MultiPath.read_drift mp j i = Ok x.
Proof.
  intros (p & Hp & ->)%shape_lookup_inv Hi. simpl in Hi.
  unfold MultiPath.read_drift.
  rewrite (bind_Ok_l _ _ p) by now apply at_Ok. now apply at_in_range.
Qed.

Lemma read_diffusion_in_range mp j i s :
  shape mp !! j = Some s -> i < s.2 ->
  exists x, MultiPath.read_diffusion mp j i = Ok x.
Proof.
  intros (p & Hp & ->)%shape_lookup_inv Hi. simpl in Hi.
  unfold MultiPath.read_diffusion.
  rewrite (bind_Ok_l _ _ p) by now apply at_Ok. now apply at_in_range.
Qed.

End Stores.

(** ** The constructor *)

Section Constructor.
Context `{Library} {SG : Type} `{SequenceGenerator SG}.
Import MultiPathGenerator.

Lemma shape_make (fill : float) (k : nat) (times : list float) :
  shape (MultiPath.make fill k times) =
    replicate k (times, length times - 1, length times - 1).
Proof.
  unfold shape, MultiPath.make. rewrite fmap_replicate. simpl.
  now rewrite !length_replicate.
Qed.

Lemma TimeGrid_dt_in_range (times : list float) (i : nat) :
  i + 1 < length times -> exists dt, TimeGrid.dt times i = Ok dt.
Proof.
  intros Hi. unfold TimeGrid.dt.
  destruct (at_in_range times (i + 1)) as [t1 ->]; [lia|].
  destruct (at_in_range times i) as [t0 ->]; [lia|]. simpl. eauto.
Qed.

Lemma prefill_drift_step drifts times mp0 k nd nf m j i mp mp' :
  shape mp0 = replicate k (times, nd, nf) ->
  prefilled drifts times mp0 m j i mp ->
  prefill_drift drifts j i mp = Ok mp' ->
  prefilled drifts times mp0 m j (S i) mp'.
Proof.
  intros Hshape [Hsh Hfilled] Hrun. unfold prefill_drift in Hrun.
  inv_result. rename a into d, a0 into p, a1 into dt.
  assert (Path.timeGrid p = times) as Hgrid.
  { apply shape_lookup in Ha0. rewrite Hsh, Hshape in Ha0.
    apply lookup_replicate_1 in Ha0 as [Heq _]. congruence. }
  split; [now rewrite (write_drift_shape _ _ _ _ _ Hrun)|].
  intros j' i' Hji.
  rewrite (read_drift_write_drift _ _ _ _ _ j' i' Hrun).
  case_decide as Hhere.
  - destruct Hhere as [-> ->]. exists d, dt. now rewrite <- Hgrid.
  - apply Hfilled. lia.
Qed.

Lemma prefill_drift_row drifts times mp0 k nd nf m j mp mp' :
  shape mp0 = replicate k (times, nd, nf) ->
  prefilled drifts times mp0 m j 0 mp ->
  for_range 0 m (prefill_drift drifts j) mp = Ok mp' ->
  prefilled drifts times mp0 m (S j) 0 mp'.
Proof.
  intros Hshape Hstart Hrun.
  apply (for_range_invariant (prefilled drifts times mp0 m j)) in Hrun.
  - destruct Hrun as [Hsh Hfilled]. split; [exact Hsh|].
    intros j' i' Hji. apply Hfilled. simpl. lia.
  - exact Hstart.
  - intros i s1 s2 _. now apply prefill_drift_step with (k := k) (nd := nd) (nf := nf).
Qed.

Lemma prefill_Ok drifts times mp0 k nd nf n m mp :
  shape mp0 = replicate k (times, nd, nf) ->
  for_range 0 n (fun j => for_range 0 m (prefill_drift drifts j)) mp0 = Ok mp ->
  prefilled drifts times mp0 m n 0 mp.
Proof.
  intros Hshape Hrun.
  apply (for_range_invariant (fun j => prefilled drifts times mp0 m j 0))
    in Hrun; [exact Hrun| |].
  - split; [reflexivity|]. intros j' i' Hji. lia.
  - intros j s1 s2 _. now apply prefill_drift_row with (k := k) (nd := nd) (nf := nf).
Qed.

Lemma prefill_returns drifts times mp0 k nd nf n m :
  shape mp0 = replicate k (times, nd, nf) ->
  n <= length drifts -> n <= k -> m <= nd -> m + 1 <= length times \/ m = 0 ->
  exists mp,
    for_range 0 n (fun j => for_range 0 m (prefill_drift drifts j)) mp0 = Ok mp.
Proof.
  intros Hshape Hd Hk Hnd Hm.
  destruct (for_range_returns (fun _ mp => shape mp = shape mp0)
              (fun j => for_range 0 m (prefill_drift drifts j)) n 0 mp0)
    as (mp & Hmp & _); [reflexivity| |eauto].
  intros j mp1 Hj Hsh1.
  destruct (for_range_returns (fun _ mp => shape mp = shape mp0)
              (prefill_drift drifts j) m 0 mp1)
    as (mp2 & Hmp2 & Hsh2); [exact Hsh1| |eauto].
  intros i mp3 Hi Hsh3. unfold prefill_drift.
  destruct (at_in_range drifts j) as [d ->]; [lia|]. simpl.
  assert (shape mp3 !! j = Some (times, nd, nf)) as Hs.
  { rewrite Hsh3, Hshape. apply lookup_replicate_2. lia. }
  destruct (shape_lookup_inv _ _ _ Hs) as (p & Hp & Heq).
  rewrite (bind_Ok_l _ _ p) by now apply at_Ok.
  injection Heq as Hg _ _. rewrite <- Hg.
  destruct (TimeGrid_dt_in_range times i) as [dt ->]; [lia|]. simpl.
  destruct (write_drift_returns mp3 j i (d * dt)%float _ Hs) as [mp4 Hw];
    [simpl; lia|].
  exists mp4. split; [exact Hw|].
  now rewrite (write_drift_shape _ _ _ _ _ Hw).
Qed.

(** The number of steps the pre-fill loops over stays inside the grid. *)
Lemma Size_steps_bound (times : list float) :
  (1 < TimeGrid.size times)%N ->
  Size.to_nat (Size.sub (TimeGrid.size times) 1%N) + 1 <= length times.
Proof.
  intros Hsize. pose proof (Size_to_nat_of_nat_le (length times)) as Hle.
  unfold TimeGrid.size in *. rewrite Size_sub_1.
  - unfold Size.to_nat in *. lia.
  - split; [lia|]. apply Size_wrap_lt.
Qed.

End Constructor.

Section ConstructorProperties.
Context `{Library} {SG : Type} `{SequenceGenerator SG}.
Import MultiPathGenerator.

Lemma constructor_passes
    (procs : list DiffusionProcess.t) (drifts : list float)
    (covariance : list (list float)) (times : list float) (generator : SG) :
  dimension generator =
    Size.mul (Size.of_nat (rows covariance))
             (Size.sub (TimeGrid.size times) 1%N) ->
  Size.of_nat (length drifts) = Size.of_nat (rows covariance) ->
  Size.of_nat (columns (matrixSqrt covariance)) =
    Size.of_nat (rows covariance) ->
  (1 < TimeGrid.size times)%N ->
  exists value1,
    for_range 0 (Size.to_nat (Size.of_nat (rows covariance)))
      (fun j => for_range 0
                  (Size.to_nat (Size.sub (TimeGrid.size times) 1%N))
                  (prefill_drift drifts j))
      (MultiPath.make unspecified (rows covariance) times) = Ok value1 /\
    MultiPathGenerator procs drifts covariance times generator =
      Ok (mk procs (Size.of_nat (rows covariance)) (matrixSqrt covariance)
             generator (mkSample value1 1%float)).
Proof.
  intros Hdim Hdrifts Hcols Htimes.
  pose proof (Size_steps_bound times Htimes) as Hsteps.
  destruct (prefill_returns drifts times
              (MultiPath.make unspecified (rows covariance) times)
              (rows covariance) (length times - 1) (length times - 1)
              (Size.to_nat (Size.of_nat (rows covariance)))
              (Size.to_nat (Size.sub (TimeGrid.size times) 1%N)))
    as [value1 Hfill].
  - apply shape_make.
  - rewrite <- Hdrifts. apply Size_to_nat_of_nat_le.
  - apply Size_to_nat_of_nat_le.
  - lia.
  - lia.
  - exists value1. split; [exact Hfill|].
    unfold MultiPathGenerator.
    rewrite <- Hdim, Hdrifts, Hcols, !N.eqb_refl.
    apply N.ltb_lt in Htimes. rewrite Htimes. simpl.
    now rewrite Hfill.
Qed.

Lemma constructor_rejects
    (procs : list DiffusionProcess.t) (drifts : list float)
    (covariance : list (list float)) (times : list float) (generator : SG) :
  dimension generator <>
    Size.mul (Size.of_nat (rows covariance))
             (Size.sub (TimeGrid.size times) 1%N) \/
  Size.of_nat (length drifts) <> Size.of_nat (rows covariance) \/
  Size.of_nat (columns (matrixSqrt covariance)) <>
    Size.of_nat (rows covariance) \/
  (TimeGrid.size times < 2)%N ->
  exists what,
    MultiPathGenerator procs drifts covariance times generator =
      Err (Error what).
Proof.
  intros Hbad. unfold MultiPathGenerator.
  set (numAssets := Size.of_nat (rows covariance)) in *.
  set (numSteps := Size.sub (TimeGrid.size times) 1%N) in *.
  destruct (N.eqb_spec (dimension generator) (Size.mul numAssets numSteps))
    as [Hdim'|Hdim]; [|simpl; eauto].
  destruct (N.eqb_spec (Size.of_nat (length drifts)) numAssets)
    as [Hdrifts'|Hdrifts]; [|simpl; eauto].
  destruct (N.eqb_spec (Size.of_nat (columns (matrixSqrt covariance)))
              numAssets) as [Hcols'|Hcols]; [|simpl; eauto].
  destruct (N.ltb_spec 1 (TimeGrid.size times)) as [Hlt|_]; [|simpl; eauto].
  exfalso. destruct Hbad as [?|[?|[?|?]]]; try contradiction. lia.
Qed.

(** C4.  The constructor raises an [Error] (and so hands out no
    generator) as soon as one of its four requirements fails: the
    dimension of the sequence generator is not
    numAssets * (times.size() - 1), the drifts are not numAssets many,
    the square-root covariance has not numAssets columns, or the grid
    has fewer than two points; when all four hold it returns a
    generator.  The sizes are std::size_t values, compared as the
    source compares them. *)
Theorem C4_constructor_validation
    (procs : list DiffusionProcess.t) (drifts : list float)
    (covariance : list (list float)) (times : list float) (generator : SG) :
  let numAssets := Size.of_nat (rows covariance) in
  let numSteps := Size.sub (TimeGrid.size times) 1%N in
  (dimension generator <> Size.mul numAssets numSteps \/
   Size.of_nat (length drifts) <> numAssets \/
   Size.of_nat (columns (matrixSqrt covariance)) <> numAssets \/
   (TimeGrid.size times < 2)%N ->
   exists what,
     MultiPathGenerator procs drifts covariance times generator =
       Err (Error what)) /\
  (dimension generator = Size.mul numAssets numSteps /\
   Size.of_nat (length drifts) = numAssets /\
   Size.of_nat (columns (matrixSqrt covariance)) = numAssets /\
   (2 <= TimeGrid.size times)%N ->
   exists g,
     MultiPathGenerator procs drifts covariance times generator = Ok g).
Proof.
  intros numAssets numSteps. split.
  - apply constructor_rejects.
  - intros (Hdim & Hdrifts & Hcols & Htimes).
    destruct (constructor_passes procs drifts covariance times generator)
      as (value1 & _ & Hg); auto; [lia|eauto].
Qed.

(** C10.  A constructed generator holds the square root of the
    covariance, computed by the one call of [matrixSqrt] in the member
    initialisers, and every entry of every asset's drift array is
    pre-filled with drifts[j] * timeGrid.dt(i): each array has
    times.size() - 1 entries and all of them are covered. *)
Theorem C10_constructor_prefill
    (procs : list DiffusionProcess.t) (drifts : list float)
    (covariance : list (list float)) (times : list float) (generator : SG)
    (g : MultiPathGenerator.t SG) :
  representable (rows covariance) ->
  representable (length times) ->
  MultiPathGenerator procs drifts covariance times generator = Ok g ->
  sqrtCovariance_ g = matrixSqrt covariance /\
  shape (value (next_ g)) =
    replicate (rows covariance) (times, length times - 1, length times - 1) /\
  forall j i, j < rows covariance -> i < length times - 1 ->
    exists d dt,
      drifts !! j = Some d /\ TimeGrid.dt times i = Ok dt /\
      MultiPath.read_drift (value (next_ g)) j i = Ok (d * dt)%float.
Proof.
  intros Hrows Htimes Hg. unfold MultiPathGenerator in Hg.
  inv_result. subst g. simpl.
  unfold QL_REQUIRE in Ha2. case_match eqn:Hlt; [|discriminate].
  apply N.ltb_lt in Hlt.
  pose proof (prefill_Ok drifts times _ _ _ _ _ _ _
                (shape_make unspecified (rows covariance) times) Ha3)
    as [Hshape Hfilled].
  split; [reflexivity|]. split; [now rewrite Hshape, shape_make|].
  intros j i Hj Hi. apply Hfilled. left.
  unfold TimeGrid.size in *. rewrite !Size_of_nat_small in * by assumption.
  rewrite Size_sub_1 by (unfold representable in *; lia).
  unfold Size.to_nat. lia.
Qed.

End ConstructorProperties.

(** ** One time step *)

Section Steps.
Context `{Library} {SG : Type} `{SequenceGenerator SG}.
Import MultiPathGenerator.

Implicit Types (S : list (list float)) (temp asset : list float)
  (mp : list Path.t) (procs : list DiffusionProcess.t).

Lemma Array_copy_Ok (src : list float) offset count (dst out : list float) :
  Array_copy src offset count dst = Ok out ->
  offset + count <= length src /\ count <= length dst /\
  out = take count (drop offset src) ++ drop count dst.
Proof. unfold Array_copy. case_decide; intros; simplify_eq; tauto. Qed.

Lemma Array_copy_whole (src : list float) offset count (dst : list float) :
  offset + count <= length src -> length dst = count ->
  Array_copy src offset count dst = Ok (take count (drop offset src)).
Proof.
  intros Hsrc Hdst. unfold Array_copy. rewrite decide_True by lia.
  rewrite (drop_ge dst count) by lia. now rewrite app_nil_r.
Qed.

Lemma Matrix_mul_Array_Ok S temp v :
  Matrix_mul_Array S temp = Ok v ->
  v = map (fun r => inner_product r temp) S.
Proof. unfold Matrix_mul_Array. case_decide; congruence. Qed.

Lemma Matrix_mul_Array_returns S temp :
  Forall (fun r : list float => length r <= length temp) S ->
  Matrix_mul_Array S temp = Ok (map (fun r => inner_product r temp) S).
Proof. intros HS. unfold Matrix_mul_Array. now rewrite decide_True. Qed.

(** What lines 134-138 leave in [temp]: the product, with component 0
    divided by the norm of S[0][0], S[0][1] and component 1 by the norm
    of S[1][0], S[1][1]; the other components are the product's. *)
Lemma correlate_Ok S temp w :
  correlate S temp = Ok w ->
  exists v t0 t1 s00 s01 s10 s11,
    Matrix_mul_Array S temp = Ok v /\
    v !! 0 = Some t0 /\ v !! 1 = Some t1 /\
    Matrix_at S 0 0 = Ok s00 /\ Matrix_at S 0 1 = Ok s01 /\
    Matrix_at S 1 0 = Ok s10 /\ Matrix_at S 1 1 = Ok s11 /\
    w = <[1 := (t1 / QL_SQRT (s10 * s10 + s11 * s11))%float]>
          (<[0 := (t0 / QL_SQRT (s00 * s00 + s01 * s01))%float]> v).
Proof.
  unfold correlate. intros Hw. inv_result. subst.
  rewrite list_lookup_insert_ne in Ha4 by lia.
  repeat eexists; eauto.
Qed.

Lemma correlate_length S temp w :
  correlate S temp = Ok w -> length w = length S.
Proof.
  intros (v & t0 & t1 & s00 & s01 & s10 & s11 & Hv & _ & _ & _ & _ & _ & _ & ->)
    %correlate_Ok.
  apply Matrix_mul_Array_Ok in Hv as ->.
  now rewrite !length_insert, length_map.
Qed.

Lemma Matrix_at_in_range S n i j :
  length S = n -> Forall (fun r : list float => length r = n) S ->
  i < n -> j < n -> exists x, Matrix_at S i j = Ok x.
Proof.
  intros Hrows Hcols Hi Hj. unfold Matrix_at.
  destruct (lookup_lt_is_Some_2 S i) as [r Hr]; [lia|].
  rewrite (bind_Ok_l _ _ r) by now apply at_Ok.
  apply at_in_range. rewrite Forall_lookup in Hcols.
  now rewrite (Hcols i r Hr).
Qed.

Lemma correlate_returns S temp n :
  2 <= n -> length S = n ->
  Forall (fun r : list float => length r = n) S -> length temp = n ->
  exists w, correlate S temp = Ok w /\ length w = n.
Proof.
  intros Hn Hrows Hcols Htemp.
  assert (exists w, correlate S temp = Ok w) as [w Hw].
  { unfold correlate. rewrite Matrix_mul_Array_returns
      by (eapply Forall_impl; [exact Hcols|simpl; lia]). simpl.
    set (v := map _ S). assert (length v = n) as Hv
      by (subst v; now rewrite length_map).
    destruct (at_in_range v 0) as [t0 ->]; [lia|]. simpl.
    destruct (Matrix_at_in_range S n 0 0) as [s00 ->]; try lia; auto.
    destruct (Matrix_at_in_range S n 0 1) as [s01 ->]; try lia; auto.
    simpl. rewrite store_in_range by lia. simpl.
    destruct (at_in_range
                (<[0:=(t0 / QL_SQRT (s00 * s00 + s01 * s01))%float]> v) 1)
      as [t1 ->]; [rewrite length_insert; lia|]. simpl.
    destruct (Matrix_at_in_range S n 1 0) as [s10 ->]; try lia; auto.
    destruct (Matrix_at_in_range S n 1 1) as [s11 ->]; try lia; auto.
    simpl. rewrite store_in_range by (rewrite length_insert; lia). eauto. }
  exists w. split; [exact Hw|]. now rewrite (correlate_length _ _ _ Hw).
Qed.

Lemma evolve_step procs i t dt temp asset0 mp0 j st st' :
  evolved procs i t dt temp asset0 mp0 j st ->
  evolve procs i t dt temp j st = Ok st' ->
  evolved procs i t dt temp asset0 mp0 (S j) st'.
Proof.
  destruct st as [asset mp]. intros (Hsh & Hlen & Hdone & Hrest & Hframe) Hrun.
  unfold evolve in Hrun. simpl in *. inv_result.
  rename a into proc, a0 into a, a1 into mp1, a2 into s, a3 into mp2,
    a4 into d, a5 into f.
  subst st'. simpl.
  pose proof (read_drift_write_drift _ _ _ _ _ j i Ha1) as Hd1.
  rewrite decide_True in Hd1 by auto.
  pose proof (read_drift_write_diffusion _ _ _ _ _ j i Ha3) as Hd2.
  pose proof (read_diffusion_write_diffusion _ _ _ _ _ j i Ha3) as Hf2.
  rewrite decide_True in Hf2 by auto.
  assert (d = drift_increment proc t dt a) as -> by congruence.
  assert (f = diffusion_increment proc t dt a s) as -> by congruence.
  rewrite Hrest in Ha0 by lia. subst a6.
  unfold evolved. simpl.
  split; [|split; [|split; [|split]]].
  - rewrite (write_diffusion_shape _ _ _ _ _ Ha3).
    now rewrite (write_drift_shape _ _ _ _ _ Ha1).
  - now rewrite length_insert.
  - intros j' Hj'. destruct (decide (j' = j)) as [->|Hne].
    + exists proc, a, s.
      rewrite list_lookup_insert_eq by exact Hlt. repeat split; congruence.
    + destruct (Hdone j') as (proc' & a' & s' & ? & ? & ? & Hd' & Hf' & Ha');
        [lia|].
      exists proc', a', s'.
      rewrite list_lookup_insert_ne by congruence.
      rewrite (read_drift_write_diffusion _ _ _ _ _ j' i Ha3),
        (read_drift_write_drift _ _ _ _ _ j' i Ha1),
        (read_diffusion_write_diffusion _ _ _ _ _ j' i Ha3),
        (read_diffusion_write_drift _ _ _ _ _ j' i Ha1).
      rewrite !decide_False by (intros [? _]; congruence).
      repeat split; assumption.
  - intros j' Hj'. rewrite list_lookup_insert_ne by lia.
    apply Hrest. lia.
  - intros j' i' Hji.
    rewrite (read_drift_write_diffusion _ _ _ _ _ j' i' Ha3),
      (read_drift_write_drift _ _ _ _ _ j' i' Ha1),
      (read_diffusion_write_diffusion _ _ _ _ _ j' i' Ha3),
      (read_diffusion_write_drift _ _ _ _ _ j' i' Ha1).
    rewrite !decide_False by (intros [? ?]; lia).
    apply Hframe. lia.
Qed.

Lemma evolved_start procs i t dt temp asset mp :
  evolved procs i t dt temp asset mp 0 (asset, mp).
Proof.
  repeat split; auto. intros j' Hj'. lia.
Qed.

Lemma evolve_all_Ok procs i t dt temp asset mp n st :
  for_range 0 n (evolve procs i t dt temp) (asset, mp) = Ok st ->
  evolved procs i t dt temp asset mp n st.
Proof.
  intros Hrun.
  apply (for_range_invariant (evolved procs i t dt temp asset mp)) in Hrun;
    [exact Hrun|apply evolved_start|].
  intros j s1 s2 _. apply evolve_step.
Qed.

Lemma evolve_all_returns procs i t dt temp asset mp n m :
  n <= length procs -> n <= length asset -> n <= length temp ->
  n <= length mp ->
  Forall (fun s : list float * nat * nat => s.1.2 = m /\ s.2 = m) (shape mp) ->
  i < m ->
  exists st, for_range 0 n (evolve procs i t dt temp) (asset, mp) = Ok st.
Proof.
  intros Hprocs Hasset Htemp Hmp Harrays Hi.
  destruct (for_range_returns
              (fun _ st => shape st.2 = shape mp /\ length st.1 = length asset)
              (evolve procs i t dt temp) n 0 (asset, mp))
    as (st & Hst & _); [auto| |eauto].
  intros j [asset1 mp1] Hj [Hsh Hlen]. simpl in *. unfold evolve. simpl.
  destruct (at_in_range procs j) as [proc ->]; [lia|].
  destruct (at_in_range asset1 j) as [a ->]; [lia|]. simpl.
  destruct (lookup_lt_is_Some_2 (shape mp) j) as [s Hs];
    [rewrite shape_length; lia|].
  rewrite Forall_lookup in Harrays. destruct (Harrays j s Hs) as [Hs1 Hs2].
  destruct (write_drift_returns mp1 j i (drift_increment proc t dt a) s)
    as [mp2 Hw2]; [now rewrite Hsh|lia|].
  rewrite Hw2. simpl.
  destruct (at_in_range temp j) as [x ->]; [lia|]. simpl.
  pose proof (write_drift_shape _ _ _ _ _ Hw2) as Hsh2.
  destruct (write_diffusion_returns mp2 j i
              (diffusion_increment proc t dt a x) s)
    as [mp3 Hw3]; [now rewrite Hsh2, Hsh|lia|].
  rewrite Hw3. simpl.
  pose proof (write_diffusion_shape _ _ _ _ _ Hw3) as Hsh3.
  destruct (read_drift_in_range mp3 j i s) as [d ->];
    [now rewrite Hsh3, Hsh2, Hsh|lia|].
  destruct (read_diffusion_in_range mp3 j i s) as [f ->];
    [now rewrite Hsh3, Hsh2, Hsh|lia|].
  simpl. rewrite store_in_range by lia. simpl.
  eexists. split; [reflexivity|]. simpl.
  rewrite length_insert. split; congruence.
Qed.

End Steps.

(** ** The transform against the spec's *)

Section Transform.

(** For two assets the transform of lines 134-138 is the spec's
    transform: each component divided by the norm of its row. *)
Lemma correlate_two_assets (S : list (list float)) (temp : list float) :
  length S = 2 -> Forall (fun r : list float => length r = 2) S ->
  length temp = 2 ->
  MultiPathGenerator.correlate S temp = CorrelatedStepTransform S temp.
Proof.
  intros HS Hrows Htemp.
  destruct S as [|r0 [|r1 [|]]]; try discriminate.
  apply Forall_cons in Hrows as [H0 [H1 _]%Forall_cons].
  destruct r0 as [|a [|b [|]]]; try discriminate.
  destruct r1 as [|c [|d [|]]]; try discriminate.
  destruct temp as [|x [|y [|]]]; try discriminate.
  unfold MultiPathGenerator.correlate, CorrelatedStepTransform.
  rewrite Matrix_mul_Array_returns by (repeat constructor).
  reflexivity.
Qed.

(** From the third component on, lines 134-138 leave the product as
    it is. *)
Lemma correlate_other_components (S : list (list float))
    (temp v w : list float) (k : nat) :
  MultiPathGenerator.correlate S temp = Ok w ->
  Matrix_mul_Array S temp = Ok v ->
  2 <= k -> w !! k = v !! k.
Proof.
  intros (v' & t0 & t1 & s00 & s01 & s10 & s11 & Hv & _ & _ & _ & _ & _ & _ & ->)
    %correlate_Ok Hv' Hk.
  rewrite !list_lookup_insert_ne by lia. congruence.
Qed.

End Transform.

(** ** A whole call *)

Section Next.
Context `{Library} {SG : Type} `{SequenceGenerator SG}.
Import MultiPathGenerator.

Variable g : MultiPathGenerator.t SG.
Variable sequence_ : Sample (list float).

Local Abbreviation n := (assets g).
Local Abbreviation procs := (diffusionProcs_ g).

Lemma shock_unfold (i : nat) :
  shock g sequence_ i =
    (prev <- previous_temp g sequence_ i ;;
     temp <- Array_copy (value sequence_) (offset g i) n prev ;;
     correlate (sqrtCovariance_ g) temp).
Proof. destruct i; reflexivity. Qed.

(** Lines 116-118. *)
Lemma initial_levels_Ok (asset0 asset : list float) :
  for_range 0 n (initial_level procs) asset0 = Ok asset ->
  length asset = length asset0 /\
  forall j, j < n -> exists l, level g sequence_ j 0 = Ok l /\ asset !! j = Some l.
Proof.
  intros Hrun.
  apply (for_range_invariant
           (fun j asset => length asset = length asset0 /\
              forall j', j' < j ->
                exists l, level g sequence_ j' 0 = Ok l /\ asset !! j' = Some l))
    in Hrun; [exact Hrun| |].
  - split; [reflexivity|]. intros j' Hj'. lia.
  - intros j a1 a2 _ [Hlen Hdone] Hbody. unfold initial_level in Hbody.
    inv_result. subst a2. rewrite length_insert. split; [exact Hlen|].
    intros j' Hj'. destruct (decide (j' = j)) as [->|Hne].
    + exists (DiffusionProcess.x0 a). simpl.
      rewrite (bind_Ok_l _ _ a) by now apply at_Ok.
      now rewrite list_lookup_insert_eq.
    + rewrite list_lookup_insert_ne by congruence. apply Hdone. lia.
Qed.

Lemma initial_levels_returns (asset0 : list float) :
  n <= length procs -> n <= length asset0 ->
  exists asset, for_range 0 n (initial_level procs) asset0 = Ok asset.
Proof.
  intros Hprocs Hasset.
  destruct (for_range_returns (fun _ asset => length asset = length asset0)
              (initial_level procs) n 0 asset0) as (asset & Hrun & _);
    [reflexivity| |eauto].
  intros j a1 Hj Hlen. unfold initial_level.
  destruct (at_in_range procs j) as [proc ->]; [lia|]. simpl.
  rewrite store_in_range by lia.
  eexists. split; [reflexivity|]. now rewrite length_insert.
Qed.

Lemma step_stepped mp0 i st st' :
  stepped g sequence_ mp0 i st ->
  step g sequence_ (grid g) i st = Ok st' ->
  stepped g sequence_ mp0 (S i) st'.
Proof.
  destruct st as [[asset temp] mp].
  intros (Hsh & Hprev & Hlevel & Hdone) Hrun.
  unfold step in Hrun. simpl in *. inv_result.
  rename a into t, a0 into dt, a1 into temp1, a2 into temp2.
  destruct a3 as [asset' mp']. subst st'. simpl.
  apply evolve_all_Ok in Ha3 as (Hsh' & _ & Hnew & _ & Hframe). simpl in *.
  assert (shock g sequence_ i = Ok temp2) as Hshock.
  { rewrite shock_unfold, Hprev. simpl. unfold assets. rewrite Ha1. exact Ha2. }
  unfold stepped. simpl. split; [congruence|]. split; [exact Hshock|]. split.
  - intros j Hj.
    destruct (Hnew j Hj) as (proc & a & s & Hproc & Hja & Hs & _ & _ & Hasset).
    destruct (Hlevel j Hj) as (l & Hl & Hal).
    assert (a = l) as -> by congruence.
    eexists. split; [|exact Hasset].
    rewrite Hl. simpl.
    rewrite (bind_Ok_l _ _ proc) by now apply at_Ok.
    rewrite (bind_Ok_l _ _ t) by now apply at_Ok.
    rewrite Ha0. simpl. rewrite Hshock. simpl.
    now rewrite (bind_Ok_l _ _ s) by now apply at_Ok.
  - intros j i' Hj Hi'. destruct (decide (i' = i)) as [->|Hne].
    + destruct (Hnew j Hj) as (proc & a & s & Hproc & Hja & Hs & Hd & Hf & _).
      destruct (Hlevel j Hj) as (l & Hl & Hal).
      assert (a = l) as -> by congruence.
      exists proc, t, dt, temp2, s, l. repeat split; assumption.
    + destruct (Hdone j i') as (proc & t' & dt' & temp' & s & l & Hinc);
        [exact Hj|lia|].
      exists proc, t', dt', temp', s, l.
      destruct (Hframe j i') as [-> ->]; [now left|exact Hinc].
Qed.

(** The path of a call that returns: the weight of the drawn sequence,
    the lengths and grids of [next_] as they were, and for every asset
    and step the two increments of [increments]. *)
Lemma next_path_Ok (path : Sample (list Path.t)) :
  next_path g sequence_ = Ok path ->
  weight path = weight sequence_ /\
  shape (value path) = shape (value (next_ g)) /\
  forall i j, i < steps g -> j < n -> increments g sequence_ j i (value path).
Proof.
  intros Hrun. unfold next_path in Hrun. inv_result.
  rename a into asset, a0 into path0, a1 into st. subst path. simpl.
  apply initial_levels_Ok in Ha as [_ Hlevels].
  assert (grid g = Path.timeGrid path0 /\ steps g = Path.size path0)
    as [Hgrid Hsteps].
  { unfold grid, steps. destruct (value (next_ g)); simpl in Ha0; simplify_eq. auto. }
  rewrite <- Hgrid, <- Hsteps in Ha1.
  apply (for_range_invariant (stepped g sequence_ (value (next_ g)))) in Ha1.
  - destruct Ha1 as (Hsh & _ & _ & Hinc). simpl in Hinc. auto.
  - split; [reflexivity|]. split; [reflexivity|]. split; [exact Hlevels|].
    intros j i' _ Hi'. lia.
  - intros i s1 s2 _. apply step_stepped.
Qed.

End Next.

Section NextReturns.
Context `{Library} {SG : Type} `{SequenceGenerator SG}.
Import MultiPathGenerator.

Variable g : MultiPathGenerator.t SG.
Variable sequence_ : Sample (list float).

(** Inside a representable sequence the offset of a block does not
    wrap around. *)
Lemma offset_exact (i : nat) :
  representable (length (value sequence_)) ->
  i * assets g <= length (value sequence_) ->
  offset g i = i * assets g.
Proof.
  unfold representable, offset, assets, Size.mul, Size.wrap, Size.to_nat.
  intros Hrep Hi.
  assert (N.of_nat i * numAssets_ g = N.of_nat (i * N.to_nat (numAssets_ g)))%N
    as Hmul by lia.
  rewrite Hmul, N.mod_small by lia. lia.
Qed.

Lemma step_returns (mp0 : list Path.t) (i : nat)
    (st : list float * list float * list Path.t) :
  well_formed g sequence_ ->
  i < steps g ->
  shape st.2 = shape (value (next_ g)) ->
  length st.1.1 = assets g -> length st.1.2 = assets g ->
  exists st', step g sequence_ (grid g) i st = Ok st' /\
    shape st'.2 = shape (value (next_ g)) /\
    length st'.1.1 = assets g /\ length st'.1.2 = assets g.
Proof.
  intros Hwf Hi Hsh Hasset Htemp. destruct Hwf. destruct st as [[asset temp] mp].
  simpl in *. unfold step. simpl.
  destruct (at_in_range (grid g) (i + 1)) as [t ->]; [lia|]. simpl.
  destruct (TimeGrid_dt_in_range (grid g) i) as [dt ->]; [lia|]. simpl.
  assert ((i + 1) * assets g <= steps g * assets g) as Hblock
    by (apply Nat.mul_le_mono_r; lia).
  fold (assets g).
  rewrite offset_exact by (auto; lia).
  rewrite Array_copy_whole by lia. simpl.
  set (block := take (assets g) (drop (i * assets g) (value sequence_))).
  assert (length block = assets g) as Hlen.
  { subst block. rewrite length_take, length_drop. lia. }
  destruct (correlate_returns (sqrtCovariance_ g) block (assets g))
    as (temp' & -> & Htemp'); auto. simpl.
  destruct (evolve_all_returns (diffusionProcs_ g) i t dt temp' asset mp
              (assets g) (steps g)) as [[asset' mp'] Hrun]; try lia.
  { apply (f_equal length) in Hsh. rewrite !shape_length in Hsh. lia. }
  { now rewrite Hsh. }
  rewrite Hrun. simpl. eexists. split; [reflexivity|]. simpl.
  apply evolve_all_Ok in Hrun as (Hsh' & Hlen' & _). simpl in *.
  repeat split; congruence.
Qed.

(** On a well-formed state [next] returns a path. *)
Lemma next_path_returns :
  well_formed g sequence_ -> exists path, next_path g sequence_ = Ok path.
Proof.
  intros Hwf. pose proof Hwf as [].
  unfold next_path. fold (assets g).
  destruct (initial_levels_returns g (replicate (assets g) unspecified))
    as [asset Hinit]; [assumption|now rewrite length_replicate|].
  rewrite Hinit. simpl.
  apply (initial_levels_Ok g sequence_) in Hinit as [Hlen _].
  rewrite length_replicate in Hlen.
  destruct (at_in_range (value (next_ g)) 0) as [path0 Hpath0]; [lia|].
  rewrite Hpath0. simpl.
  assert (grid g = Path.timeGrid path0 /\ steps g = Path.size path0)
    as [Hgrid Hsteps].
  { apply at_Ok in Hpath0. unfold grid, steps.
    destruct (value (next_ g)); simpl in Hpath0; simplify_eq. auto. }
  rewrite <- Hgrid, <- Hsteps.
  destruct (for_range_returns
              (fun _ st => shape st.2 = shape (value (next_ g)) /\
                 length st.1.1 = assets g /\ length st.1.2 = assets g)
              (step g sequence_ (grid g)) (steps g) 0
              (asset, replicate (assets g) unspecified, value (next_ g)))
    as (st & -> & _).
  - simpl. now rewrite length_replicate.
  - intros i st Hi (Hsh & Ha & Ht).
    apply (step_returns (value (next_ g))); auto. lia.
  - simpl. eauto.
Qed.

End NextReturns.

(** ** The failures of [next] *)

Section Failures.
Context `{Library} {SG : Type} `{SequenceGenerator SG}.
Import MultiPathGenerator.

Lemma leaves_Ok {A : Type} (a : A) : leaves_container (Ok a).
Proof. intros e He. discriminate. Qed.

Lemma leaves_Err {A : Type} : leaves_container (@Err A OutOfRange).
Proof. intros e He. congruence. Qed.

Lemma leaves_bind {A B : Type} (m : result A) (k : A -> result B) :
  leaves_container m -> (forall a, leaves_container (k a)) ->
  leaves_container (bind m k).
Proof.
  intros Hm Hk e. destruct m as [a|e']; simpl.
  - apply Hk.
  - intros He. apply Hm. congruence.
Qed.

Lemma leaves_at {A : Type} (l : list A) (i : nat) : leaves_container (at_ l i).
Proof. unfold at_. destruct (l !! i); [apply leaves_Ok|apply leaves_Err]. Qed.

Lemma leaves_store {A : Type} (l : list A) (i : nat) (x : A) :
  leaves_container (store l i x).
Proof. unfold store. case_decide; [apply leaves_Ok|apply leaves_Err]. Qed.

Lemma leaves_for_range {St : Type} (body : nat -> St -> result St)
    (count : nat) :
  (forall k s, leaves_container (body k s)) ->
  forall lo s, leaves_container (for_range lo count body s).
Proof.
  intros Hbody. induction count as [|count IH]; intros lo s; simpl.
  - apply leaves_Ok.
  - apply leaves_bind; [apply Hbody|]. intros s'. apply IH.
Qed.

Create HintDb leaves.
Hint Resolve leaves_Ok leaves_Err leaves_at leaves_store : leaves.

Ltac leaves :=
  repeat first
    [ solve [auto with leaves]
    | apply leaves_for_range; intros ? ?
    | apply leaves_bind; [|intros ?] ].

Lemma leaves_Matrix_at (S : list (list float)) (i j : nat) :
  leaves_container (Matrix_at S i j).
Proof. unfold Matrix_at. leaves. Qed.

Lemma leaves_correlate (S : list (list float)) (temp : list float) :
  leaves_container (correlate S temp).
Proof.
  unfold correlate.
  assert (leaves_container (Matrix_mul_Array S temp)) as Hmul
    by (unfold Matrix_mul_Array; case_decide; auto with leaves).
  pose proof leaves_Matrix_at. leaves.
Qed.

Lemma leaves_evolve procs i t dt temp j st :
  leaves_container (evolve procs i t dt temp j st).
Proof.
  unfold evolve, MultiPath.write_drift, MultiPath.write_diffusion,
    MultiPath.read_drift, MultiPath.read_diffusion.
  leaves.
Qed.

Lemma leaves_step (g : MultiPathGenerator.t SG) sequence_ timeGrid i st :
  leaves_container (step g sequence_ timeGrid i st).
Proof.
  unfold step, TimeGrid.dt.
  assert (forall src o c dst, leaves_container (Array_copy src o c dst)) as Hcopy
    by (intros; unfold Array_copy; case_decide; auto with leaves).
  pose proof leaves_correlate. pose proof leaves_evolve. leaves.
Qed.

Lemma leaves_next_path (g : MultiPathGenerator.t SG) sequence_ :
  leaves_container (next_path g sequence_).
Proof.
  unfold next_path, initial_level. pose proof leaves_step. leaves.
Qed.

Lemma leaves_next (g : MultiPathGenerator.t SG) : leaves_container (next g).
Proof. unfold next. pose proof leaves_next_path. leaves. Qed.

(** A call that returns has taken its first step, transform included. *)
Lemma next_path_first_step (g : MultiPathGenerator.t SG) sequence_ path :
  next_path g sequence_ = Ok path -> 1 <= steps g ->
  exists prev temp, Array_copy (value sequence_) (offset g 0) (assets g)
                      (replicate (assets g) unspecified) = Ok prev /\
    correlate (sqrtCovariance_ g) prev = Ok temp.
Proof.
  intros Hrun Hsteps. unfold next_path in Hrun. inv_result.
  assert (steps g = Path.size a0) as Hsize.
  { unfold steps. destruct (value (next_ g)); simpl in Ha0; simplify_eq. auto. }
  rewrite <- Hsize in Ha1.
  destruct (steps g) as [|m]; [lia|]. simpl in Ha1. inv_result.
  unfold step in Ha2. simpl in Ha2. inv_result. eauto.
Qed.

End Failures.

(** ** [next] and [antithetic] *)

Section NextProperties.
Context `{Library} {SG : Type} `{SequenceGenerator SG}.
Import MultiPathGenerator.

Lemma next_Ok (g : MultiPathGenerator.t SG) path g' :
  next g = Ok (path, g') ->
  next_path g (nextSequence (generator_ g)).1 = Ok path /\
  g' = mk (diffusionProcs_ g) (numAssets_ g) (sqrtCovariance_ g)
          (nextSequence (generator_ g)).2 path.
Proof. unfold next. intros Hrun. inv_result. split; congruence. Qed.

Lemma next_returns (g : MultiPathGenerator.t SG) :
  well_formed g (nextSequence (generator_ g)).1 ->
  exists path g', next g = Ok (path, g').
Proof.
  intros [path Hpath]%next_path_returns. unfold next. rewrite Hpath.
  simpl. eauto.
Qed.

(** On a well-formed state with two assets or more, a call returns a
    path whose arrays have the lengths they had and whose weight is
    the weight of the drawn sequence. *)
Lemma next_lengths_and_weight (g : MultiPathGenerator.t SG) :
  well_formed g (nextSequence (generator_ g)).1 ->
  exists path g', next g = Ok (path, g') /\
    shape (value path) = shape (value (next_ g)) /\
    weight path = weight (nextSequence (generator_ g)).1.
Proof.
  intros (path & g' & Hrun)%next_returns. exists path, g'.
  split; [exact Hrun|]. apply next_Ok in Hrun as [Hpath _].
  apply next_path_Ok in Hpath. tauto.
Qed.

(** C2.  In the path a call returns, for every step i and asset j,
    with t = timeGrid[i+1] and dt = timeGrid.dt(i):
    drift[j][i] = dt * drift_j(t, level) and
    diffusion[j][i] = -shock[j] * sqrt(variance_j(t, level, dt)),
    where the level starts at x0 of the asset's process and is
    multiplied by exp(drift[j][i] + diffusion[j][i]) after each step
    ([increments] and [level]); and a call on a well-formed state
    returns. *)
Theorem C2_stored_increments (g : MultiPathGenerator.t SG) :
  let sequence_ := (nextSequence (generator_ g)).1 in
  (well_formed g sequence_ -> exists path g', next g = Ok (path, g')) /\
  (forall path g', next g = Ok (path, g') ->
     forall i j, i < steps g -> j < assets g ->
       increments g sequence_ j i (value path)).
Proof.
  intros sequence_. split; [apply next_returns|].
  intros path g' [Hpath _]%next_Ok i j Hi Hj.
  now apply (next_path_Ok g sequence_ path Hpath).
Qed.

(** C3.  [antithetic] is one more call of [next]: the same result on
    every state, so the path it returns is the path of a freshly drawn
    sequence and the sequence generator has advanced by that draw. *)
Theorem C3_antithetic_is_next (g : MultiPathGenerator.t SG) :
  antithetic g = next g /\
  (forall path g', antithetic g = Ok (path, g') ->
     next_path g (nextSequence (generator_ g)).1 = Ok path /\
     generator_ g' = (nextSequence (generator_ g)).2 /\
     next_ g' = path).
Proof.
  split; [reflexivity|]. unfold antithetic.
  intros path g' [Hpath ->]%next_Ok. simpl. auto.
Qed.

(** C6.  With one asset and a 1x1 square root, S[0][1], S[1][0],
    S[1][1] and component 1 of the product are outside their
    containers, and a call of [next] that has a step to take ends in
    [OutOfRange]. *)
Theorem C6_single_asset_out_of_range (g : MultiPathGenerator.t SG) :
  assets g = 1 ->
  length (sqrtCovariance_ g) = 1 ->
  Forall (fun r : list float => length r = 1) (sqrtCovariance_ g) ->
  1 <= steps g ->
  Matrix_at (sqrtCovariance_ g) 0 1 = Err OutOfRange /\
  Matrix_at (sqrtCovariance_ g) 1 0 = Err OutOfRange /\
  Matrix_at (sqrtCovariance_ g) 1 1 = Err OutOfRange /\
  (forall block temp,
     Matrix_mul_Array (sqrtCovariance_ g) block = Ok temp ->
     at_ temp 1 = Err OutOfRange) /\
  next g = Err OutOfRange.
Proof.
  intros Hassets Hrows Hcols Hsteps.
  destruct (sqrtCovariance_ g) as [|r [|]] eqn:HS; try discriminate.
  apply Forall_cons in Hcols as [Hr _].
  destruct r as [|s00 [|]]; try discriminate.
  assert (Matrix_at [[s00]] 0 1 = Err OutOfRange) as H01 by reflexivity.
  repeat split; try reflexivity.
  - intros block temp ->%Matrix_mul_Array_Ok. reflexivity.
  - destruct (next g) as [[path g']|e] eqn:Hrun.
    + apply next_Ok in Hrun as [Hpath _].
      apply next_path_first_step in Hpath as (prev & temp & _ & Hcor);
        [|exact Hsteps].
      apply correlate_Ok in Hcor
        as (_ & _ & _ & _ & s01 & _ & _ & _ & _ & _ & _ & Hs01 & _).
      rewrite HS in Hs01. congruence.
    + f_equal. now apply (leaves_next g).
Qed.

Lemma previous_temp_length (g : MultiPathGenerator.t SG) sequence_ i prev :
  length (sqrtCovariance_ g) = assets g ->
  previous_temp g sequence_ i = Ok prev -> length prev = assets g.
Proof.
  intros HS. destruct i as [|i]; simpl.
  - intros [= <-]. apply length_replicate.
  - rewrite shock_unfold. intros Hprev. inv_result.
    apply correlate_length in Hprev. congruence.
Qed.

(** With two assets the shock of every step is the spec's transform of
    the step's block. *)
Lemma shock_two_assets (g : MultiPathGenerator.t SG) sequence_ i temp :
  assets g = 2 -> well_formed g sequence_ ->
  shock g sequence_ i = Ok temp ->
  CorrelatedStepTransform (sqrtCovariance_ g) (draw_block g sequence_ i) =
    Ok temp.
Proof.
  intros Hn Hwf Hshock. destruct Hwf. rewrite shock_unfold in Hshock.
  inv_result. rename a into prev, a0 into block.
  apply previous_temp_length in Ha; [|assumption].
  apply Array_copy_Ok in Ha0 as (Hsrc & _ & ->).
  rewrite (drop_ge prev), app_nil_r in Hshock by lia.
  fold (draw_block g sequence_ i) in Hshock.
  rewrite <- correlate_two_assets; [exact Hshock|..].
  - congruence.
  - now rewrite <- Hn.
  - unfold draw_block. rewrite length_take, length_drop. lia.
Qed.

(** C7, as the code has it for the two assets lines 135-138 are written
    for.  [next] holds no test of a norm and no QL_REQUIRE: on no state
    at all does it raise an [Error] (a call that does not return has
    left a container).  On a well-formed two-asset state a call
    returns, and for every step i and every row k of the square root
    whose norm is zero: the shock component k is q = t / 0, the IEEE
    quotient by that zero of component k of S times the step's block,
    which is NaN or an infinity, and the diffusion increment stored
    for asset k at step i is -q * sqrt(variance_k(time, level, dt)). *)
Theorem C7_zero_norm_is_divided (g : MultiPathGenerator.t SG) :
  let sequence_ := (nextSequence (generator_ g)).1 in
  let S := sqrtCovariance_ g in
  (forall what, next g <> Err (Error what)) /\
  (assets g = 2 -> well_formed g sequence_ ->
   exists path g',
     next g = Ok (path, g') /\
     forall i k row,
       i < steps g -> S !! k = Some row -> euclidean_norm row = 0%float ->
       exists v t temp proc time dt l,
         Matrix_mul_Array S (draw_block g sequence_ i) = Ok v /\
         v !! k = Some t /\
         shock g sequence_ i = Ok temp /\
         temp !! k = Some (t / 0)%float /\
         (is_nan (t / 0)%float = true \/ is_infinity (t / 0)%float = true) /\
         diffusionProcs_ g !! k = Some proc /\
         grid g !! (i + 1) = Some time /\
         TimeGrid.dt (grid g) i = Ok dt /\
         level g sequence_ k i = Ok l /\
         MultiPath.read_diffusion (value path) k i =
           Ok ((- (t / 0)) *
               QL_SQRT (DiffusionProcess.variance proc time l dt))%float).
Proof.
  intros sequence_ S. split.
  { intros what Hrun. apply (leaves_next g) in Hrun. discriminate. }
  intros Hn Hwf.
  destruct (next_returns g Hwf) as (path & g' & Hrun).
  exists path, g'. split; [exact Hrun|].
  apply next_Ok in Hrun as [Hpath _].
  apply next_path_Ok in Hpath as (_ & _ & Hinc).
  intros i k row Hi Hrow Hzero.
  assert (k < assets g) as Hk.
  { apply lookup_lt_Some in Hrow. destruct Hwf. fold S in wf_rows0. lia. }
  destruct (Hinc i k Hi Hk)
    as (proc & time & dt & temp & s & l &
        Hproc & Htime & Hdt & Hshock & Hs & Hl & _ & Hread).
  pose proof (shock_two_assets g sequence_ i temp Hn Hwf Hshock) as Htransform.
  unfold CorrelatedStepTransform in Htransform. inv_result.
  rename a into v. subst temp. fold S in Hs.
  rewrite lookup_zip_with, Hrow in Hs.
  destruct (v !! k) as [t|] eqn:Ht; [|discriminate].
  simpl in Hs. rewrite Hzero in Hs. injection Hs as <-.
  exists v, t,
    (zip_with (fun x row0 => (x / euclidean_norm row0)%float) v S),
    proc, time, dt, l.
  repeat split; auto using quotient_by_zero.
  fold S. rewrite lookup_zip_with, Ht, Hrow. simpl. now rewrite Hzero.
Qed.

End NextProperties.

(** ** Constructed generators *)

Section Constructed.
Context `{Library} {SG : Type} `{SequenceGenerator SG}.
Import MultiPathGenerator.

(** The validation in plain arithmetic: when the sizes involved fit std::size_t, the
    constructor returns a generator exactly when the dimension is
    numAssets * (|times| - 1), there are numAssets drifts and numAssets
    columns, and the grid has two points or more. *)
Lemma constructor_validation_exact
    (procs : list DiffusionProcess.t) (drifts : list float)
    (covariance : list (list float)) (times : list float) (generator : SG) :
  representable (length drifts) ->
  representable (columns (matrixSqrt covariance)) ->
  representable (length times) ->
  representable (rows covariance) ->
  representable (rows covariance * (length times - 1)) ->
  (exists g,
     MultiPathGenerator procs drifts covariance times generator = Ok g) <->
  dimension generator = N.of_nat (rows covariance * (length times - 1)) /\
  length drifts = rows covariance /\
  columns (matrixSqrt covariance) = rows covariance /\
  2 <= length times.
Proof.
  unfold representable. intros Hd Hc Ht Hr Hprod.
  pose proof (constructor_rejects procs drifts covariance times generator)
    as Hfail.
  pose proof (constructor_passes procs drifts covariance times generator)
    as Hpass.
  unfold TimeGrid.size in *. rewrite !Size_of_nat_small in * by assumption.
  assert (2 <= length times ->
          Size.mul (N.of_nat (rows covariance))
            (Size.sub (N.of_nat (length times)) 1%N) =
          N.of_nat (rows covariance * (length times - 1))) as Hmul.
  { intros Hlen. rewrite Size_sub_1 by lia.
    rewrite Size_mul_small by lia. lia. }
  split.
  - intros [g Hg].
    assert (2 <= length times) as Hlen.
    { destruct (le_lt_dec 2 (length times)) as [|Hlt]; [assumption|].
      destruct Hfail as [what Hwhat]; [right; right; right; lia|congruence]. }
    rewrite <- Hmul by exact Hlen.
    destruct (N.eq_dec (dimension generator)
                (Size.mul (N.of_nat (rows covariance))
                   (Size.sub (N.of_nat (length times)) 1%N))) as [?|Hne];
      [|destruct Hfail as [what Hwhat]; [now left|congruence]].
    destruct (Nat.eq_dec (length drifts) (rows covariance)) as [?|Hne];
      [|destruct Hfail as [what Hwhat]; [right; left; lia|congruence]].
    destruct (Nat.eq_dec (columns (matrixSqrt covariance)) (rows covariance))
      as [?|Hne];
      [|destruct Hfail as [what Hwhat]; [right; right; left; lia|congruence]].
    auto.
  - intros (Hdim & Hdrifts & Hcols & Hlen).
    destruct Hpass as (value1 & _ & Hg); [|lia|lia|lia|eauto].
    rewrite Hmul by exact Hlen. exact Hdim.
Qed.

Lemma constructed_fields
    (procs : list DiffusionProcess.t) (drifts : list float)
    (covariance : list (list float)) (times : list float) (generator : SG)
    (g : MultiPathGenerator.t SG) :
  MultiPathGenerator procs drifts covariance times generator = Ok g ->
  diffusionProcs_ g = procs /\
  numAssets_ g = Size.of_nat (rows covariance) /\
  sqrtCovariance_ g = matrixSqrt covariance /\
  generator_ g = generator /\
  dimension generator =
    Size.mul (Size.of_nat (rows covariance))
      (Size.sub (TimeGrid.size times) 1%N) /\
  (1 < TimeGrid.size times)%N /\
  shape (value (next_ g)) =
    replicate (rows covariance) (times, length times - 1, length times - 1).
Proof.
  intros Hg. unfold MultiPathGenerator in Hg. inv_result. subst g. simpl.
  unfold QL_REQUIRE in *.
  repeat case_match; try discriminate.
  apply (prefill_Ok drifts times _ _ _ _ _ _ _
           (shape_make unspecified (rows covariance) times)) in Ha3
    as [Hshape _].
  rewrite Hshape, shape_make.
  repeat split; auto; [now apply N.eqb_eq|now apply N.ltb_lt].
Qed.

(** A generator constructed for two assets or more, with a process per
    asset and a square root of the covariance's size, is well formed
    for every sequence of the generator's dimension. *)
Lemma constructed_well_formed
    (procs : list DiffusionProcess.t) (drifts : list float)
    (covariance : list (list float)) (times : list float) (generator : SG)
    (g : MultiPathGenerator.t SG) (sequence_ : Sample (list float)) :
  MultiPathGenerator procs drifts covariance times generator = Ok g ->
  2 <= rows covariance -> rows covariance <= length procs ->
  length (matrixSqrt covariance) = rows covariance ->
  Forall (fun r : list float => length r = rows covariance)
    (matrixSqrt covariance) ->
  representable (length times) ->
  representable (rows covariance * (length times - 1)) ->
  length (value sequence_) = Size.to_nat (dimension generator) ->
  well_formed g sequence_.
Proof.
  intros Hg Hn Hprocs Hrows Hcols Htimes Hprod Hseq.
  apply constructed_fields in Hg
    as (Hp & Hnum & HS & _ & Hdim & Hlen & Hshape).
  unfold representable, TimeGrid.size in *.
  rewrite Size_of_nat_small in Hlen by assumption.
  assert (rows covariance * 1 <= rows covariance * (length times - 1)) as Hone
    by (apply Nat.mul_le_mono_l; lia).
  assert (N.of_nat (rows covariance) < Size.modulus)%N as Hr by lia.
  assert (assets g = rows covariance) as Hassets.
  { unfold assets. rewrite Hnum, Size_of_nat_small by exact Hr.
    unfold Size.to_nat. lia. }
  assert (length (value (next_ g)) = rows covariance) as Hpaths.
  { rewrite <- shape_length, Hshape. apply length_replicate. }
  assert (steps g = length times - 1 /\ grid g = times) as [Hsteps Hgrid].
  { unfold steps, grid. destruct (value (next_ g)) as [|p mp] eqn:Hv.
    - simpl in Hpaths. lia.
    - destruct (rows covariance) as [|k]; [lia|].
      simpl in Hshape. injection Hshape as Hg Hd _ _. auto. }
  assert (length (value sequence_) = rows covariance * (length times - 1))
    as Hlength.
  { rewrite Hseq, Hdim, !Size_of_nat_small by assumption.
    rewrite Size_sub_1 by lia. rewrite Size_mul_small by lia.
    unfold Size.to_nat. lia. }
  split.
  - lia.
  - rewrite Hp. lia.
  - now rewrite HS, Hassets.
  - now rewrite HS, Hassets.
  - lia.
  - rewrite Hshape, Hsteps. apply Forall_replicate. auto.
  - rewrite Hgrid, Hsteps. lia.
  - rewrite Hsteps, Hassets, Hlength. lia.
  - unfold representable. rewrite Hlength. exact Hprod.
Qed.

(** [next] keeps a state well formed for the next sequence of the same
    length. *)
Lemma next_keeps_well_formed (g g' : MultiPathGenerator.t SG)
    (path : Sample (list Path.t)) (sequence' : Sample (list float)) :
  well_formed g (nextSequence (generator_ g)).1 ->
  next g = Ok (path, g') ->
  length (value sequence') = length (value (nextSequence (generator_ g)).1) ->
  well_formed g' sequence'.
Proof.
  intros Hwf Hrun Hlen. pose proof Hrun as [Hpath ->]%next_Ok.
  apply next_path_Ok in Hpath as (_ & Hshape & _).
  assert (length (value path) = length (value (next_ g))) as Hpaths
    by (rewrite <- !shape_length; congruence).
  assert (forall (mp1 mp2 : list Path.t), shape mp1 = shape mp2 ->
            match mp1 with [] => 0 | p :: _ => Path.size p end =
            match mp2 with [] => 0 | p :: _ => Path.size p end /\
            match mp1 with [] => [] | p :: _ => Path.timeGrid p end =
            match mp2 with [] => [] | p :: _ => Path.timeGrid p end) as Hhead.
  { intros [|p1 mp1] [|p2 mp2] Hsh; try discriminate; [auto|].
    injection Hsh as Hg Hd _ _. auto. }
  destruct (Hhead _ _ Hshape) as [Hsteps Hgrid].
  destruct Hwf. split; unfold assets, steps, grid in *; simpl in *;
    rewrite ?Hshape, ?Hpaths, ?Hsteps, ?Hgrid, ?Hlen; assumption.
Qed.

End Constructed.

(** ** Unspecified memory does not show *)

Section Memory.
Context {SG : Type} `{SequenceGenerator SG}.
Import MultiPathGenerator.

(** Two libraries with the same exponential: they may differ in what a
    fresh array holds. *)
Variables L1 L2 : Library.
Hypothesis same_exp : forall x, @QL_EXP L1 x = @QL_EXP L2 x.

Lemma shape_head (mp1 mp2 : list Path.t) :
  shape mp1 = shape mp2 ->
  match mp1 with [] => 0 | p :: _ => Path.size p end =
    match mp2 with [] => 0 | p :: _ => Path.size p end /\
  match mp1 with [] => [] | p :: _ => Path.timeGrid p end =
    match mp2 with [] => [] | p :: _ => Path.timeGrid p end.
Proof.
  destruct mp1 as [|p1 mp1], mp2 as [|p2 mp2]; intros Hsh;
    try discriminate; [auto|].
  injection Hsh as Hg Hd _ _. auto.
Qed.

Lemma alike_observations (g1 g2 : MultiPathGenerator.t SG) :
  alike g1 g2 ->
  assets g1 = assets g2 /\ steps g1 = steps g2 /\ grid g1 = grid g2 /\
  forall i, offset g1 i = offset g2 i.
Proof.
  intros (_ & Hn & _ & _ & Hsh). apply shape_head in Hsh as [Hsteps Hgrid].
  unfold assets, steps, grid, offset. rewrite Hn. auto.
Qed.

Lemma well_formed_alike (g1 g2 : MultiPathGenerator.t SG) sequence_ :
  alike g1 g2 -> well_formed g1 sequence_ -> well_formed g2 sequence_.
Proof.
  intros Halike Hwf.
  destruct (alike_observations g1 g2 Halike) as (Ha & Hs & Hg & _).
  destruct Halike as (Hp & _ & HS & _ & Hsh). destruct Hwf.
  assert (length (value (next_ g1)) = length (value (next_ g2))) as Hlen
    by (rewrite <- !shape_length; congruence).
  split; rewrite <- ?Ha, <- ?Hs, <- ?Hg, <- ?Hp, <- ?HS, <- ?Hsh, <- ?Hlen;
    assumption.
Qed.

Lemma Array_copy_fresh (src : list float) (o n : nat) (u1 u2 : float) :
  Array_copy src o n (replicate n u1) = Array_copy src o n (replicate n u2).
Proof.
  unfold Array_copy. rewrite !length_replicate.
  now rewrite (drop_ge (replicate n u1)), (drop_ge (replicate n u2))
    by (rewrite length_replicate; lia).
Qed.

Lemma shock_alike (g1 g2 : MultiPathGenerator.t SG) sequence_ (i : nat) :
  alike g1 g2 ->
  @shock L1 SG g1 sequence_ i = @shock L2 SG g2 sequence_ i.
Proof.
  intros Halike.
  destruct (alike_observations g1 g2 Halike) as (Ha & _ & _ & Ho).
  destruct Halike as (_ & _ & HS & _ & _).
  induction i as [|i IH]; simpl.
  - rewrite Ha, Ho, HS. now rewrite (Array_copy_fresh _ _ _ _ (@unspecified L2)).
  - now rewrite IH, Ha, Ho, HS.
Qed.

Lemma level_alike (g1 g2 : MultiPathGenerator.t SG) sequence_ (j i : nat) :
  alike g1 g2 ->
  @level L1 SG g1 sequence_ j i = @level L2 SG g2 sequence_ j i.
Proof.
  intros Halike.
  destruct (alike_observations g1 g2 Halike) as (_ & _ & Hg & _).
  pose proof (fun i => shock_alike g1 g2 sequence_ i Halike) as Hshock.
  destruct Halike as (Hp & _ & _ & _ & _).
  induction i as [|i IH]; simpl.
  - now rewrite Hp.
  - rewrite IH, Hp, Hg, Hshock.
    destruct (@level L2 SG g2 sequence_ j i) as [l|]; [simpl|reflexivity].
    destruct (at_ (diffusionProcs_ g2) j) as [proc|]; [simpl|reflexivity].
    destruct (at_ (grid g2) (i + 1)) as [t|]; [simpl|reflexivity].
    destruct (TimeGrid.dt (grid g2) i) as [dt|]; [simpl|reflexivity].
    destruct (@shock L2 SG g2 sequence_ i) as [temp|]; [simpl|reflexivity].
    destruct (at_ temp j) as [s|]; [simpl|reflexivity].
    unfold drift_increment, diffusion_increment. now rewrite same_exp.
Qed.

Lemma increments_alike (g1 g2 : MultiPathGenerator.t SG) sequence_ j i
    (mp1 mp2 : list Path.t) :
  alike g1 g2 ->
  @increments L1 SG g1 sequence_ j i mp1 ->
  @increments L2 SG g2 sequence_ j i mp2 ->
  MultiPath.read_drift mp1 j i = MultiPath.read_drift mp2 j i /\
  MultiPath.read_diffusion mp1 j i = MultiPath.read_diffusion mp2 j i.
Proof.
  intros Halike.
  destruct (alike_observations g1 g2 Halike) as (_ & _ & Hg & _).
  pose proof (shock_alike g1 g2 sequence_ i Halike) as Hshock.
  pose proof (level_alike g1 g2 sequence_ j i Halike) as Hlevel.
  destruct Halike as (Hp & _ & _ & _ & _).
  intros (proc1 & t1 & dt1 & temp1 & s1 & l1 & ? & ? & ? & ? & ? & ? & -> & ->)
         (proc2 & t2 & dt2 & temp2 & s2 & l2 & ? & ? & ? & ? & ? & ? & -> & ->).
  assert (proc1 = proc2) by congruence.
  assert (t1 = t2) by congruence.
  assert (dt1 = dt2) by congruence.
  assert (temp1 = temp2) by congruence.
  assert (l1 = l2) by congruence.
  subst. assert (s1 = s2) by congruence. subst. auto.
Qed.

Lemma at_inj {A : Type} (l1 l2 : list A) (i : nat) :
  at_ l1 i = at_ l2 i -> l1 !! i = l2 !! i.
Proof. unfold at_. destruct (l1 !! i), (l2 !! i); congruence. Qed.

(** Two multi-paths of one shape with the same entries are the same. *)
Lemma multipath_ext (mp1 mp2 : list Path.t) (m : nat) :
  shape mp1 = shape mp2 ->
  Forall (fun s : list float * nat * nat => s.1.2 = m /\ s.2 = m) (shape mp1) ->
  (forall j i, j < length mp1 -> i < m ->
     MultiPath.read_drift mp1 j i = MultiPath.read_drift mp2 j i /\
     MultiPath.read_diffusion mp1 j i = MultiPath.read_diffusion mp2 j i) ->
  mp1 = mp2.
Proof.
  intros Hsh Harrays Hsame. apply list_eq. intros j.
  destruct (mp1 !! j) as [p1|] eqn:Hp1.
  - pose proof (shape_lookup _ _ _ Hp1) as Hs1.
    pose proof Hs1 as Hs2. rewrite Hsh in Hs2.
    apply shape_lookup_inv in Hs2 as (p2 & Hp2 & Heq).
    injection Heq as Hg Hd Hf. rewrite Hp2. f_equal.
    rewrite Forall_lookup in Harrays.
    destruct (Harrays _ _ Hs1) as [Hd1 Hf1]. simpl in *.
    assert (forall i, Path.drift p1 !! i = Path.drift p2 !! i /\
                      Path.diffusion p1 !! i = Path.diffusion p2 !! i) as Hall.
    { intros i. destruct (le_lt_dec m i) as [Hge|Hlt].
      - rewrite !lookup_ge_None_2 by lia. auto.
      - destruct (Hsame j i) as [Hrd Hrf]; [eauto using lookup_lt_Some|lia|].
        unfold MultiPath.read_drift, MultiPath.read_diffusion in *.
        rewrite (bind_Ok_l _ _ p1), (bind_Ok_l _ _ p2) in Hrd by now apply at_Ok.
        rewrite (bind_Ok_l _ _ p1), (bind_Ok_l _ _ p2) in Hrf by now apply at_Ok.
        split; now apply at_inj. }
    destruct p1 as [g1 d1 f1], p2 as [g2 d2 f2]. simpl in *. f_equal.
    + exact Hg.
    + apply list_eq. intros i. apply Hall.
    + apply list_eq. intros i. apply Hall.
  - symmetry. apply lookup_ge_None. apply lookup_ge_None in Hp1.
    rewrite <- shape_length, <- Hsh, shape_length. exact Hp1.
Qed.

(** On well-formed states that hold one path per asset, the path of a
    call does not depend on what [next_] or a fresh array held. *)
Lemma next_path_alike (g1 g2 : MultiPathGenerator.t SG) sequence_ :
  alike g1 g2 -> well_formed g1 sequence_ ->
  length (value (next_ g1)) = assets g1 ->
  exists path,
    @next_path L1 SG g1 sequence_ = Ok path /\
    @next_path L2 SG g2 sequence_ = Ok path.
Proof.
  intros Halike Hwf1 Hcover.
  pose proof (well_formed_alike g1 g2 sequence_ Halike Hwf1) as Hwf2.
  destruct (@next_path_returns L1 SG g1 sequence_ Hwf1) as [p1 Hp1].
  destruct (@next_path_returns L2 SG g2 sequence_ Hwf2) as [p2 Hp2].
  exists p1. split; [exact Hp1|]. rewrite Hp2. f_equal.
  apply next_path_Ok in Hp1 as (Hw1 & Hsh1 & Hinc1).
  apply next_path_Ok in Hp2 as (Hw2 & Hsh2 & Hinc2).
  destruct (alike_observations g1 g2 Halike) as (Ha & Hs & _ & _).
  pose proof Halike as (_ & _ & _ & _ & Hsh).
  destruct p1 as [v1 w1], p2 as [v2 w2]. simpl in *. f_equal; [|congruence].
  symmetry. apply (multipath_ext v1 v2 (steps g1)).
  - congruence.
  - rewrite Hsh1. now destruct Hwf1.
  - intros j i Hj Hi.
    assert (j < assets g1) as Hj'
      by (rewrite <- Hcover, <- shape_length, <- Hsh1, shape_length; exact Hj).
    apply (increments_alike g1 g2 sequence_ j i); auto.
    apply Hinc2; congruence.
Qed.

Hypothesis fixed_dimension :
  forall sg : SG, length (value (nextSequence sg).1) = Size.to_nat (dimension sg).
Hypothesis kept_dimension :
  forall sg : SG, dimension (nextSequence sg).2 = dimension sg.

(** Call by call, two such generators return the same paths. *)
Lemma paths_alike (calls : nat) :
  forall g1 g2 : MultiPathGenerator.t SG,
    alike g1 g2 ->
    well_formed g1 (nextSequence (generator_ g1)).1 ->
    length (value (next_ g1)) = assets g1 ->
    @paths L1 SG _ calls g1 = @paths L2 SG _ calls g2.
Proof.
  induction calls as [|calls IH]; intros g1 g2 Halike Hwf Hcover; [reflexivity|].
  destruct (next_path_alike g1 g2 _ Halike Hwf Hcover) as (path & Hp1 & Hp2).
  pose proof Halike as (Hprocs & Hnum & HS & Hgen & _).
  simpl. unfold next. rewrite <- Hgen, Hp1, Hp2. simpl.
  rewrite <- Hprocs, <- Hnum, <- HS. f_equal.
  set (g' := mk _ _ _ _ _).
  assert (@next L1 SG _ g1 = Ok (path, g')) as Hrun
    by (unfold next; now rewrite Hp1).
  apply IH.
  - repeat split.
  - apply (@next_keeps_well_formed L1 SG _ g1 g' path); [exact Hwf|exact Hrun|].
    subst g'. simpl. now rewrite !fixed_dimension, kept_dimension.
  - apply next_path_Ok in Hp1 as (_ & Hsh & _). subst g'. unfold assets. simpl.
    rewrite <- shape_length, Hsh, shape_length. exact Hcover.
Qed.

End Memory.

Section EveryCall.
Context {SG : Type} `{SequenceGenerator SG}.
Import MultiPathGenerator.

Hypothesis fixed_dimension :
  forall sg : SG, length (value (nextSequence sg).1) = Size.to_nat (dimension sg).
Hypothesis kept_dimension :
  forall sg : SG, dimension (nextSequence sg).2 = dimension sg.

(** With two assets or more every call returns: call by call, a path
    whose arrays have the lengths [next_] had at the start and whose
    weight is the weight of the sequence drawn for that call. *)
Lemma calls_return `{Library} (calls : nat) :
  forall g : MultiPathGenerator.t SG,
    well_formed g (nextSequence (generator_ g)).1 ->
    Forall2 (fun r sequence_ =>
               exists path, r = Ok path /\
                 shape (value path) = shape (value (next_ g)) /\
                 weight path = weight sequence_)
      (paths calls g) (draws calls (generator_ g)).
Proof.
  induction calls as [|calls IH]; intros g Hwf; simpl; [constructor|].
  destruct (next_lengths_and_weight g Hwf) as (path & g' & Hrun & Hsh & Hw).
  rewrite Hrun. simpl. constructor; [eauto|].
  pose proof Hrun as [_ Hg']%next_Ok.
  assert (generator_ g' = (nextSequence (generator_ g)).2) as Hgen
    by (subst g'; reflexivity).
  assert (next_ g' = path) as Hnext by (subst g'; reflexivity).
  rewrite <- Hgen.
  eapply Forall2_impl; [apply IH|].
  - apply (next_keeps_well_formed g g' path); [exact Hwf|exact Hrun|].
    now rewrite Hgen, !fixed_dimension, kept_dimension.
  - intros r sequence_ (p & -> & Hp & Hpw). exists p.
    rewrite Hnext in Hp. repeat split; congruence.
Qed.

End EveryCall.

(** ** Concrete runs *)

Section Runs.
Import Examples.
Import MultiPathGenerator.

Example two_assets_constructed : two_assets = Ok two_assets_generator.
Proof. vm_compute. reflexivity. Qed.

Example single_asset_constructed : single_asset = Ok single_asset_generator.
Proof. vm_compute. reflexivity. Qed.

Example zero_row_constructed : zero_row = Ok zero_row_generator.
Proof. vm_compute. reflexivity. Qed.

(** The constructed two-asset generator is well formed for its first
    sequence, and so for every sequence of four entries. *)
Example two_assets_well_formed :
  well_formed two_assets_generator
    (nextSequence (generator_ two_assets_generator)).1.
Proof.
  split; try (vm_compute; lia); try reflexivity.
  - repeat constructor.
  - repeat constructor.
Qed.

Example two_assets_first_path :
  first_path two_assets =
    Ok (mkSample
          [Path.mk [0; 1; 3]%float [0.5; 1]%float
             [-1; - PrimFloat.sqrt 8]%float;
           Path.mk [0; 1; 3]%float [0; 0]%float
             [-2; -3 * PrimFloat.sqrt 8]%float]
          0.5%float).
Proof. vm_compute. reflexivity. Qed.

(** C1.  On three independent assets of variance 4 (S = 2·I) and the
    draw (1, 1, 1) the transform of [next] leaves the shock
    (1, 1, 2): the third component is the product's, not divided by
    the norm 2 of its row, where dividing every component by its row
    norm gives (1, 1, 1); the path [next] returns carries the
    diffusion increments -1, -1, -2. *)
Theorem C1_third_component_not_divided :
  correlate [[2; 0; 0]; [0; 2; 0]; [0; 0; 2]]%float [1; 1; 1]%float =
    Ok [1; 1; 2]%float /\
  CorrelatedStepTransform
    [[2; 0; 0]; [0; 2; 0]; [0; 0; 2]]%float [1; 1; 1]%float =
    Ok [1; 1; 1]%float /\
  first_path three_assets =
    Ok (mkSample [Path.mk [0; 1]%float [0]%float [-1]%float;
                  Path.mk [0; 1]%float [0]%float [-1]%float;
                  Path.mk [0; 1]%float [0]%float [-2]%float] 0.5%float).
Proof. repeat split; vm_compute; reflexivity. Qed.

(** C5.  The constructor accepts the grid 0, 2, 1: it returns a
    generator on that grid, and the first path of that generator
    carries NaN increments at the step that goes back in time. *)
Theorem C5_decreasing_grid_accepted :
  (exists g, decreasing_grid = Ok g /\ grid g = [0; 2; 1]%float) /\
  first_path decreasing_grid =
    Ok (mkSample
          [Path.mk [0; 2; 1]%float [0; -0]%float [- PrimFloat.sqrt 2; nan]%float;
           Path.mk [0; 2; 1]%float [0; -0]%float [- PrimFloat.sqrt 2; nan]%float]
          0.5%float).
Proof.
  split; [|vm_compute; reflexivity].
  eexists. split; vm_compute; reflexivity.
Qed.

(** C7 fails as stated: with the zero row 0 in the square root
    (a norm of 0), [next] returns without an error, the shock of
    asset 0 is 0/0 = NaN, and NaN is stored as its diffusion
    increment. *)
Lemma C7_zero_row_is_divided :
  euclidean_norm [0; 0]%float = 0%float /\
  shock zero_row_generator (mkSample [1; 1]%float 0.5%float) 0 =
    Ok [nan; 1]%float /\
  first_path zero_row =
    Ok (mkSample [Path.mk [0; 1]%float [0]%float [nan]%float;
                  Path.mk [0; 1]%float [0]%float [-1]%float] 0.5%float).
Proof. repeat split; vm_compute; reflexivity. Qed.

(** C6 at the constructed single-asset generator. *)
Lemma C6_single_asset_witness :
  (assets single_asset_generator = 1 /\
   length (sqrtCovariance_ single_asset_generator) = 1 /\
   Forall (fun r : list float => length r = 1)
     (sqrtCovariance_ single_asset_generator) /\
   1 <= steps single_asset_generator) /\
  next single_asset_generator = Err OutOfRange.
Proof.
  assert (Forall (fun r : list float => length r = 1)
            (sqrtCovariance_ single_asset_generator)) as Hcols
    by (repeat constructor).
  split; [repeat split; solve [reflexivity | exact Hcols | apply le_n]|].
  apply (C6_single_asset_out_of_range single_asset_generator
           eq_refl eq_refl Hcols (le_n 1)).
Defined.

(** C10 at the constructed two-asset generator: the pre-filled drift of
    asset 1 at step 1 is drifts[1] * (t[2] - t[1]). *)
Lemma C10_two_assets_witness :
  (representable 2 /\ representable 3 /\
   two_assets = Ok two_assets_generator) /\
  MultiPath.read_drift (value (next_ two_assets_generator)) 1 1 =
    Ok (0.75 * (3 - 1))%float.
Proof.
  assert (representable 2) as H2 by reflexivity.
  assert (representable 3) as H3 by reflexivity.
  split; [repeat split; solve [assumption | vm_compute; reflexivity]|].
  destruct (C10_constructor_prefill
              [gbm 0.5 1; gbm 0 2] [0.25; 0.75]%float
              [[1; 0]; [0; 4]]%float [0; 1; 3]%float
              (mkReplay 4 [mkSample [1; 1; 2; 3]%float 0.5%float])
              two_assets_generator H2 H3 two_assets_constructed)
    as (_ & _ & Hfill).
  destruct (Hfill 1 1) as (d & dt & Hd & Hdt & Hread);
    [apply le_n|apply le_n|].
  injection Hd as <-. injection Hdt as <-. exact Hread.
Defined.

(** C7 at the generator with the zero row: the call returns, and the
    shock and the stored diffusion increment of asset 0 come from the
    quotient by the zero norm of row 0. *)
Lemma C7_zero_row_witness :
  (assets zero_row_generator = 2 /\
   well_formed zero_row_generator
     (nextSequence (generator_ zero_row_generator)).1 /\
   sqrtCovariance_ zero_row_generator !! 0 = Some [0; 0]%float /\
   euclidean_norm [0; 0]%float = 0%float) /\
  exists path g',
    next zero_row_generator = Ok (path, g') /\
    exists t proc time dt l,
      diffusionProcs_ zero_row_generator !! 0 = Some proc /\
      MultiPath.read_diffusion (value path) 0 0 =
        Ok ((- (t / 0)) *
            QL_SQRT (DiffusionProcess.variance proc time l dt))%float.
Proof.
  assert (well_formed zero_row_generator
            (nextSequence (generator_ zero_row_generator)).1) as Hwf.
  { split; try (vm_compute; lia); try reflexivity; repeat constructor. }
  split; [split; [reflexivity|split; [exact Hwf|split; reflexivity]]|].
  destruct (proj2 (C7_zero_norm_is_divided zero_row_generator) eq_refl Hwf)
    as (path & g' & Hrun & Hdivided).
  exists path, g'. split; [exact Hrun|].
  destruct (Hdivided 0 0 [0; 0]%float (le_n 1) eq_refl eq_refl)
    as (v & t & temp & proc & time & dt & l &
        _ & _ & _ & _ & _ & Hproc & _ & _ & _ & Hread).
  exists t, proc, time, dt, l. split; [exact Hproc|exact Hread].
Defined.

End Runs.

(** ** The result of every call *)

Section EveryResult.
Context `{Library} {SG : Type} `{SequenceGenerator SG}.
Import MultiPathGenerator.





End EveryResult.

(** * Further properties of MultiPathGenerator *)

Section Blocks.
Context `{Library} {SG : Type} `{SequenceGenerator SG}.
Import MultiPathGenerator.

Variable g : MultiPathGenerator.t SG.
Variable sequence_ : Sample (list float).

Lemma draw_block_exact (i : nat) :
  well_formed g sequence_ -> i < steps g ->
  draw_block g sequence_ i =
    take (assets g) (drop (i * assets g) (value sequence_)) /\
  length (draw_block g sequence_ i) = assets g.
Proof.
  intros Hwf Hi. destruct Hwf.
  assert ((i + 1) * assets g <= steps g * assets g) as Hblock
    by (apply Nat.mul_le_mono_r; lia).
  unfold draw_block. rewrite (offset_exact g sequence_) by (auto; lia).
  split; [reflexivity|]. rewrite length_take, length_drop. lia.
Qed.

(** On a well-formed state the shock of a step is the transform of
    that step's block alone. *)
Lemma shock_of_block (i : nat) :
  well_formed g sequence_ -> i < steps g ->
  exists temp,
    shock g sequence_ i = Ok temp /\ length temp = assets g /\
    correlate (sqrtCovariance_ g) (draw_block g sequence_ i) = Ok temp.
Proof.
  intros Hwf. induction i as [|i IH]; intros Hi.
  - destruct (draw_block_exact 0 Hwf Hi) as [Hblock Hlen].
    pose proof Hwf as [].
    destruct (correlate_returns (sqrtCovariance_ g) (draw_block g sequence_ 0)
                (assets g)) as (temp & Htemp & Hl); auto.
    exists temp. repeat split; auto.
    rewrite shock_unfold. simpl. unfold draw_block in *.
    rewrite Array_copy_whole; [exact Htemp| |apply length_replicate].
    rewrite length_take, length_drop in Hlen. lia.
  - destruct IH as (prev & Hprev & Hprevlen & _); [lia|].
    destruct (draw_block_exact (S i) Hwf Hi) as [Hblock Hlen].
    pose proof Hwf as [].
    destruct (correlate_returns (sqrtCovariance_ g)
                (draw_block g sequence_ (S i)) (assets g))
      as (temp & Htemp & Hl); auto.
    exists temp. repeat split; auto.
    rewrite shock_unfold. simpl. rewrite Hprev. simpl. unfold draw_block in *.
    rewrite Array_copy_whole; [exact Htemp| |exact Hprevlen].
    rewrite length_take, length_drop in Hlen. lia.
Qed.

Lemma blocks_join (n m : nat) :
  forall l : list float,
    length l = m * n ->
    concat (map (fun i => take n (drop (i * n) l)) (seq 0 m)) = l.
Proof.
  induction m as [|m IH]; intros l Hl.
  - simpl in *. symmetry. now apply nil_length_inv.
  - simpl. rewrite <- seq_shift, map_map.
    transitivity (take n l ++ drop n l); [|apply take_drop]. f_equal.
    etransitivity; [|apply (IH (drop n l)); rewrite length_drop; simpl in Hl; lia].
    f_equal. apply map_ext. intros i. now rewrite drop_drop.
Qed.

End Blocks.

Section FurtherProperties.
Context `{Library} {SG : Type} `{SequenceGenerator SG}.
Import MultiPathGenerator.

(** X1.  On a well-formed state whose drawn sequence has numAssets
    entries per step, the blocks the steps copy out of the sequence are
    its consecutive stretches of numAssets entries, which put end to
    end give the sequence back (each drawn number is used by exactly
    one step), and the shock of a step is the transform of that step's
    block alone. *)
Theorem X1_steps_use_consecutive_blocks
    (g : MultiPathGenerator.t SG) (sequence_ : Sample (list float)) :
  well_formed g sequence_ ->
  length (value sequence_) = steps g * assets g ->
  concat (map (draw_block g sequence_) (seq 0 (steps g))) = value sequence_ /\
  forall i, i < steps g ->
    draw_block g sequence_ i =
      take (assets g) (drop (i * assets g) (value sequence_)) /\
    shock g sequence_ i =
      correlate (sqrtCovariance_ g) (draw_block g sequence_ i).
Proof.
  intros Hwf Hlen. split.
  - etransitivity;
      [|exact (blocks_join (assets g) (steps g) (value sequence_) Hlen)].
    f_equal. apply map_ext_in. intros i Hi%in_seq.
    apply draw_block_exact; [exact Hwf|lia].
  - intros i Hi. split; [now apply draw_block_exact|].
    destruct (shock_of_block g sequence_ i Hwf Hi) as (temp & -> & _ & ->).
    reflexivity.
Qed.

(** X2.  With two assets, on a well-formed state, the shock of every
    step is what the spec's transform gives on the step's block: each
    component of S times the block divided by the Euclidean norm of its
    row of S. *)
Theorem X2_two_asset_shock_is_row_normalised
    (g : MultiPathGenerator.t SG) (sequence_ : Sample (list float)) (i : nat) :
  assets g = 2 -> well_formed g sequence_ -> i < steps g ->
  exists temp,
    shock g sequence_ i = Ok temp /\
    CorrelatedStepTransform (sqrtCovariance_ g) (draw_block g sequence_ i) =
      Ok temp.
Proof.
  intros Hn Hwf Hi.
  destruct (shock_of_block g sequence_ i Hwf Hi) as (temp & Hshock & _ & Hcor).
  destruct (draw_block_exact g sequence_ i Hwf Hi) as [_ Hlen].
  exists temp. split; [exact Hshock|].
  rewrite <- correlate_two_assets; [exact Hcor|..].
  - destruct Hwf. congruence.
  - destruct Hwf. now rewrite <- Hn.
  - congruence.
Qed.

(** X3.  Whatever the number of assets, the transform of lines 134-138
    returns one component per row of S, and every component from the
    third on is the inner product of its row with the block, not
    divided by anything. *)
Theorem X3_components_beyond_second_not_divided
    (S : list (list float)) (temp w : list float) :
  correlate S temp = Ok w ->
  length w = length S /\
  forall k r, 2 <= k -> S !! k = Some r ->
    w !! k = Some (inner_product r temp).
Proof.
  intros Hw. split; [now apply correlate_length in Hw|].
  intros k r Hk Hr.
  apply correlate_Ok in Hw
    as (v & t0 & t1 & s00 & s01 & s10 & s11 & Hv & _ & _ & _ & _ & _ & _ & ->).
  apply Matrix_mul_Array_Ok in Hv as ->.
  rewrite !list_lookup_insert_ne by lia.
  now rewrite list_lookup_fmap, Hr.
Qed.

Hypothesis fixed_dimension :
  forall sg : SG, length (value (nextSequence sg).1) = Size.to_nat (dimension sg).
Hypothesis kept_dimension :
  forall sg : SG, dimension (nextSequence sg).2 = dimension sg.

(** X4.  A generator constructed for two assets or more, with a process
    per asset and a square root of the covariance's size, on a sequence
    generator whose sequences all have its dimension: every call of
    [next] returns, call after call, a path with one pair of increment
    arrays of times.size() - 1 entries per asset, on the grid of the
    constructor, whose weight is the weight of the sequence drawn for
    that call. *)
Theorem X4_constructed_calls_return
    (procs : list DiffusionProcess.t) (drifts : list float)
    (covariance : list (list float)) (times : list float) (generator : SG)
    (g : MultiPathGenerator.t SG) (calls : nat) :
  MultiPathGenerator procs drifts covariance times generator = Ok g ->
  2 <= rows covariance -> rows covariance <= length procs ->
  length (matrixSqrt covariance) = rows covariance ->
  Forall (fun r : list float => length r = rows covariance)
    (matrixSqrt covariance) ->
  representable (length times) ->
  representable (rows covariance * (length times - 1)) ->
  Forall2 (fun r sequence_ =>
             exists path, r = Ok path /\
               shape (value path) =
                 replicate (rows covariance)
                   (times, length times - 1, length times - 1) /\
               weight path = weight sequence_)
    (paths calls g) (draws calls generator).
Proof.
  intros Hg Hn Hprocs Hrows Hcols Htimes Hprod.
  pose proof (constructed_fields _ _ _ _ _ _ Hg)
    as (_ & _ & _ & Hgen & _ & _ & Hshape).
  rewrite <- Hgen, <- Hshape.
  apply calls_return; auto.
  apply (constructed_well_formed procs drifts covariance times generator); auto.
  rewrite Hgen. apply fixed_dimension.
Qed.

Lemma next_path_ignores_generator (g : MultiPathGenerator.t SG) (sg : SG)
    (sequence_ : Sample (list float)) :
  next_path g sequence_ =
    next_path (mk (diffusionProcs_ g) (numAssets_ g) (sqrtCovariance_ g) sg
                  (next_ g)) sequence_.
Proof. destruct g. reflexivity. Qed.

Lemma paths_from_draws (g : MultiPathGenerator.t SG) (calls : nat) :
  forall g1 : MultiPathGenerator.t SG,
    diffusionProcs_ g = diffusionProcs_ g1 ->
    numAssets_ g = numAssets_ g1 ->
    sqrtCovariance_ g = sqrtCovariance_ g1 ->
    shape (value (next_ g)) = shape (value (next_ g1)) ->
    well_formed g1 (nextSequence (generator_ g1)).1 ->
    length (value (next_ g1)) = assets g1 ->
    paths calls g1 = map (next_path g) (draws calls (generator_ g1)).
Proof.
  induction calls as [|calls IH];
    intros g1 Hp Hn HS Hsh Hwf Hcover; [reflexivity|].
  set (sequence_ := (nextSequence (generator_ g1)).1).
  destruct (next_path_alike H H (fun _ => eq_refl) g1
              (mk (diffusionProcs_ g) (numAssets_ g) (sqrtCovariance_ g)
                  (generator_ g1) (next_ g)) sequence_)
    as (path & Hp1 & Hp2); [repeat split; simpl; congruence|exact Hwf|exact Hcover|].
  rewrite <- next_path_ignores_generator in Hp2.
  simpl. fold sequence_. rewrite Hp2. unfold next. fold sequence_.
  rewrite Hp1. simpl. f_equal.
  assert (next g1 = Ok (path, mk (diffusionProcs_ g1) (numAssets_ g1)
                                 (sqrtCovariance_ g1)
                                 (nextSequence (generator_ g1)).2 path)) as Hrun
    by (unfold next; fold sequence_; now rewrite Hp1).
  pose proof (next_path_Ok g1 sequence_ path Hp1) as (_ & Hshape & _).
  apply IH; simpl; try congruence.
  - apply (next_keeps_well_formed g1 _ path); [exact Hwf|exact Hrun|].
    simpl. now rewrite !fixed_dimension, kept_dimension.
  - unfold assets. simpl. rewrite <- shape_length, Hshape, shape_length.
    exact Hcover.
Qed.

(** X5.  Calls do not influence one another except through the
    sequence generator: on a well-formed state that holds one path per
    asset, the paths of successive calls are what [next] computes on
    the original state from each drawn sequence by itself; what [next_]
    held before a call (the pre-fill or an earlier path) never shows. *)
Theorem X5_paths_are_a_function_of_the_draws
    (g : MultiPathGenerator.t SG) (calls : nat) :
  well_formed g (nextSequence (generator_ g)).1 ->
  length (value (next_ g)) = assets g ->
  paths calls g = map (next_path g) (draws calls (generator_ g)).
Proof. intros Hwf Hcover. now apply paths_from_draws. Qed.

End FurtherProperties.

Section Inputs.
Context {SG : Type} `{SequenceGenerator SG}.
Import MultiPathGenerator.

Hypothesis fixed_dimension :
  forall sg : SG, length (value (nextSequence sg).1) = Size.to_nat (dimension sg).
Hypothesis kept_dimension :
  forall sg : SG, dimension (nextSequence sg).2 = dimension sg.

(** X6.  Of the drifts given to the constructor only the number is
    used: for two assets or more, generators constructed from the same
    processes, covariance, grid and sequence generator return the same
    paths, call by call, whatever the values of the drifts and whatever
    freshly allocated arrays hold (two libraries that agree on the
    exponential and on the square root). *)
Theorem X6_paths_ignore_drifts_and_fresh_memory (L1 L2 : Library)
    (procs : list DiffusionProcess.t) (drifts1 drifts2 : list float)
    (covariance : list (list float)) (times : list float) (generator : SG)
    (g1 g2 : MultiPathGenerator.t SG) (calls : nat) :
  (forall x, @QL_EXP L1 x = @QL_EXP L2 x) ->
  @matrixSqrt L1 covariance = @matrixSqrt L2 covariance ->
  @MultiPathGenerator L1 SG _ procs drifts1 covariance times generator = Ok g1 ->
  @MultiPathGenerator L2 SG _ procs drifts2 covariance times generator = Ok g2 ->
  2 <= rows covariance -> rows covariance <= length procs ->
  length (@matrixSqrt L1 covariance) = rows covariance ->
  Forall (fun r : list float => length r = rows covariance)
    (@matrixSqrt L1 covariance) ->
  representable (length times) ->
  representable (rows covariance * (length times - 1)) ->
  @paths L1 SG _ calls g1 = @paths L2 SG _ calls g2.
Proof.
  intros Hexp Hsqrt Hg1 Hg2 Hn Hprocs Hrows Hcols Htimes Hprod.
  pose proof (@constructed_fields L1 SG _ _ _ _ _ _ _ Hg1)
    as (Hp1 & Hn1 & HS1 & Hgen1 & _ & Hlen & Hsh1).
  pose proof (@constructed_fields L2 SG _ _ _ _ _ _ _ Hg2)
    as (Hp2 & Hn2 & HS2 & Hgen2 & _ & _ & Hsh2).
  assert (well_formed g1 (nextSequence (generator_ g1)).1) as Hwf.
  { apply (@constructed_well_formed L1 SG _ procs drifts1 covariance times
             generator); auto.
    rewrite Hgen1. apply fixed_dimension. }
  apply paths_alike; auto.
  - repeat split; congruence.
  - rewrite <- shape_length, Hsh1, length_replicate.
    unfold representable, TimeGrid.size in *.
    rewrite Size_of_nat_small in Hlen by assumption.
    assert (rows covariance * 1 <= rows covariance * (length times - 1))
      by (apply Nat.mul_le_mono_l; lia).
    unfold assets. rewrite Hn1, Size_of_nat_small by lia.
    unfold Size.to_nat. lia.
Qed.

End Inputs.

Section MissingProcesses.
Context `{Library} {SG : Type} `{SequenceGenerator SG}.
Import MultiPathGenerator.

Lemma next_needs_processes (g : MultiPathGenerator.t SG) :
  length (diffusionProcs_ g) < assets g -> next g = Err OutOfRange.
Proof.
  intros Hshort. destruct (next g) as [[path g']|e] eqn:Hrun.
  - apply next_Ok in Hrun as [Hpath _]. unfold next_path in Hpath.
    inv_result.
    apply (initial_levels_Ok g (nextSequence (generator_ g)).1) in Ha
      as [_ Hlevels].
    destruct (Hlevels (length (diffusionProcs_ g)) Hshort) as (l & Hl & _).
    simpl in Hl. inv_result.
    apply lookup_lt_Some in Ha. lia.
  - f_equal. now apply (leaves_next g).
Qed.

(** X7.  The constructor does not compare the number of diffusion
    processes with the number of assets: given fewer processes than
    assets and arguments that pass its four checks it returns a
    generator, and every call of [next] on that generator reads
    [diffusionProcs_] out of range. *)
Theorem X7_processes_are_not_counted
    (procs : list DiffusionProcess.t) (drifts : list float)
    (covariance : list (list float)) (times : list float) (generator : SG) :
  dimension generator =
    Size.mul (Size.of_nat (rows covariance))
             (Size.sub (TimeGrid.size times) 1%N) ->
  Size.of_nat (length drifts) = Size.of_nat (rows covariance) ->
  Size.of_nat (columns (matrixSqrt covariance)) =
    Size.of_nat (rows covariance) ->
  (1 < TimeGrid.size times)%N ->
  representable (rows covariance) ->
  length procs < rows covariance ->
  exists g,
    MultiPathGenerator procs drifts covariance times generator = Ok g /\
    next g = Err OutOfRange.
Proof.
  intros Hdim Hdrifts Hcols Htimes Hrep Hshort.
  destruct (constructor_passes procs drifts covariance times generator)
    as (value1 & _ & Hg); auto.
  eexists. split; [exact Hg|]. apply next_needs_processes.
  unfold assets. simpl. rewrite Size_of_nat_small by exact Hrep.
  unfold Size.to_nat. lia.
Qed.

End MissingProcesses.

(** ** Determinism *)

Section Determinism.
Context {SG : Type} `{SequenceGenerator SG}.
Import MultiPathGenerator.

Hypothesis fixed_dimension :
  forall sg : SG, length (value (nextSequence sg).1) = Size.to_nat (dimension sg).
Hypothesis kept_dimension :
  forall sg : SG, dimension (nextSequence sg).2 = dimension sg.



End Determinism.

(** * The legacy generator MultiPathGenerator_old *)

(** A loop whose body, under an invariant, either returns or raises an
    [Error] for a reason [Q] either returns or raises an [Error], for
    the reason [Q] of one of its rounds. *)
Lemma for_range_checked {St : Type} (P : nat -> St -> Prop) (Q : nat -> Prop)
    (body : nat -> St -> result St) (count : nat) :
  forall (lo : nat) (s : St),
    P lo s ->
    (forall k s1, lo <= k < lo + count -> P k s1 ->
       (exists s2, body k s1 = Ok s2 /\ P (S k) s2) \/
       ((exists what, body k s1 = Err (Error what)) /\ Q k)) ->
    (exists s', for_range lo count body s = Ok s' /\ P (lo + count) s') \/
    ((exists what, for_range lo count body s = Err (Error what)) /\
     exists k, lo <= k < lo + count /\ Q k).
Proof.
  induction count as [|count IH]; intros lo s Hs Hbody; simpl.
  - left. exists s. now rewrite Nat.add_0_r.
  - destruct (Hbody lo s) as [(s2 & Hs2 & HP)|[[what Hwhat] HQ]];
      [lia|exact Hs| |].
    + rewrite Hs2. simpl. rewrite <- Nat.add_succ_comm.
      destruct (IH (S lo) s2 HP) as [Hok|[Herr (k & Hk & HQ)]].
      * intros k s1 Hk. apply Hbody. lia.
      * now left.
      * right. split; [exact Herr|]. exists k. split; [lia|exact HQ].
    + rewrite Hwhat. simpl. right. split; [eauto|].
      exists lo. split; [lia|exact HQ].
Qed.

Section LegacyConstructor.
Context `{Library} `{LegacyLibrary} {RAG : Type} `{RandomArrayGenerator RAG}.
Import MultiPathGenerator_old.

Lemma check_times_run (times : list float) :
  1 <= length times ->
  (exists timeDelays,
     for_range 1 (length times - 1) (check_time times)
       (replicate (length times - 1) 0%float) = Ok timeDelays /\
     delays_checked times (length times - 1) (length times) timeDelays) \/
  ((exists what,
      for_range 1 (length times - 1) (check_time times)
        (replicate (length times - 1) 0%float) = Err (Error what)) /\
   exists k previous current,
     times !! (k - 1) = Some previous /\ times !! k = Some current /\
     1 <= k /\ (previous <=? current)%float = false).
Proof.
  intros Hlen.
  destruct (for_range_checked
              (delays_checked times (length times - 1))
              (fun k => exists previous current,
                 times !! (k - 1) = Some previous /\
                 times !! k = Some current /\
                 1 <= k /\ (previous <=? current)%float = false)
              (check_time times) (length times - 1) 1
              (replicate (length times - 1) 0%float))
    as [(td & Htd & HP)|[Herr (k & Hk & previous & current & HQ)]].
  - split; [apply length_replicate|]. intros i Hi. lia.
  - intros i td Hi [Hsize Hdone]. unfold check_time.
    destruct (lookup_lt_is_Some_2 times i) as [current Hc]; [lia|].
    destruct (lookup_lt_is_Some_2 times (i - 1)) as [previous Hp]; [lia|].
    rewrite (bind_Ok_l _ _ current) by now apply at_Ok.
    rewrite (bind_Ok_l _ _ previous) by now apply at_Ok.
    destruct (previous <=? current)%float eqn:Hle; simpl.
    + left. rewrite store_in_range by lia. eexists. split; [reflexivity|].
      split; [now rewrite length_insert|].
      intros i' Hi'. destruct (decide (i' = i)) as [->|Hne].
      * exists previous, current.
        rewrite list_lookup_insert_eq by lia. auto.
      * destruct (Hdone i') as (p' & c' & ? & ? & ? & ?); [lia|].
        exists p', c'. rewrite list_lookup_insert_ne by lia. auto.
    + right. split; [eauto|]. exists previous, current.
      repeat split; auto; lia.
  - left. exists td. split; [exact Htd|].
    replace (1 + (length times - 1)) with (length times) in HP by lia.
    exact HP.
  - right. split; [exact Herr|]. exists k, previous, current. exact HQ.
Qed.

Lemma fill_drift_step drifts timeDelays mp0 m j i mp mp' :
  drifts_filled drifts timeDelays mp0 m j i mp ->
  fill_drift drifts timeDelays j i mp = Ok mp' ->
  drifts_filled drifts timeDelays mp0 m j (S i) mp'.
Proof.
  intros (Hsh & Hdiff & Hfilled) Hrun. unfold fill_drift in Hrun.
  inv_result. rename a into d, a0 into delay.
  split; [now rewrite (write_drift_shape _ _ _ _ _ Hrun)|]. split.
  - intros j' i'.
    now rewrite (read_diffusion_write_drift _ _ _ _ _ j' i' Hrun).
  - intros j' i' Hji.
    rewrite (read_drift_write_drift _ _ _ _ _ j' i' Hrun).
    case_decide as Hhere.
    + destruct Hhere as [-> ->]. exists d, delay. auto.
    + apply Hfilled. lia.
Qed.

Lemma fill_drift_row drifts timeDelays mp0 k size m j mp :
  shape mp0 = replicate k size -> size.1.2 = m ->
  j < k -> j < length drifts -> m <= length timeDelays ->
  drifts_filled drifts timeDelays mp0 m j 0 mp ->
  exists mp',
    for_range 0 m (fill_drift drifts timeDelays j) mp = Ok mp' /\
    drifts_filled drifts timeDelays mp0 m (S j) 0 mp'.
Proof.
  intros Hshape Hsize Hj Hd Hm Hstart.
  destruct (for_range_returns (drifts_filled drifts timeDelays mp0 m j)
              (fill_drift drifts timeDelays j) m 0 mp Hstart)
    as (mp' & Hrun & Hsh & Hdiff & Hfilled).
  - intros i mp1 Hi Hinv.
    assert (exists mp2, fill_drift drifts timeDelays j i mp1 = Ok mp2)
      as [mp2 Hmp2].
    { unfold fill_drift.
      destruct (at_in_range drifts j) as [d ->]; [lia|]. simpl.
      destruct (at_in_range timeDelays i) as [delay ->]; [lia|]. simpl.
      apply (write_drift_returns mp1 j i _ size).
      - destruct Hinv as (-> & _). rewrite Hshape.
        now apply lookup_replicate_2.
      - lia. }
    exists mp2. split; [exact Hmp2|]. now apply (fill_drift_step _ _ _ _ _ _ mp1).
  - exists mp'. split; [exact Hrun|]. split; [exact Hsh|].
    split; [exact Hdiff|]. intros j' i' Hji. apply Hfilled. simpl. lia.
Qed.

Lemma fill_assets_run drifts variances timeDelays mp0 k size m n :
  shape mp0 = replicate k size -> size.1.2 = m ->
  n <= k -> n <= length drifts -> n <= length variances ->
  m <= length timeDelays ->
  (exists mp,
     for_range 0 n (fill_asset drifts variances timeDelays m) mp0 = Ok mp /\
     drifts_filled drifts timeDelays mp0 m n 0 mp /\
     nonnegative variances n) \/
  ((exists what,
      for_range 0 n (fill_asset drifts variances timeDelays m) mp0 =
        Err (Error what)) /\
   ~ nonnegative variances n).
Proof.
  intros Hshape Hsize Hk Hd Hv Hm.
  destruct (for_range_checked
              (fun j mp => drifts_filled drifts timeDelays mp0 m j 0 mp /\
                           nonnegative variances j)
              (fun j => exists x, j < n /\ variances !! j = Some x /\
                                  (0 <=? x)%float = false)
              (fill_asset drifts variances timeDelays m) n 0 mp0)
    as [(mp & Hmp & HP)|[Herr (j & Hj & x & Hjn & Hx & Hneg)]].
  - split.
    + split; [reflexivity|]. split; [reflexivity|]. intros j' i' Hji. lia.
    + intros j x Hj. lia.
  - intros j mp Hj [Hfilled Hnon]. unfold fill_asset.
    destruct (lookup_lt_is_Some_2 variances j) as [x Hx]; [lia|].
    rewrite (bind_Ok_l _ _ x) by now apply at_Ok.
    destruct (0 <=? x)%float eqn:Hle; simpl.
    + left.
      destruct (fill_drift_row drifts timeDelays mp0 k size m j mp)
        as (mp' & Hrun & Hfilled'); auto; try lia.
      exists mp'. split; [exact Hrun|]. split; [exact Hfilled'|].
      intros j' x' Hj' Hx'. destruct (decide (j' = j)) as [->|Hne].
      * congruence.
      * apply (Hnon j'); [lia|exact Hx'].
    + right. split; [eauto|]. exists x. repeat split; auto; lia.
  - left. exists mp. split; [exact Hmp|]. exact HP.
  - right. split; [exact Herr|]. intros Hnon.
    rewrite (Hnon j x Hjn Hx) in Hneg. discriminate.
Qed.

End LegacyConstructor.

Section LegacyConstructorProperties.
Context `{Library} `{LegacyLibrary} {RAG : Type} `{RandomArrayGenerator RAG}.
Import MultiPathGenerator_old.

Lemma old_constructor_run
    (drifts : list float) (covariance : list (list float))
    (times : list float) (seed : Z) :
  times <> [] ->
  representable (length times) -> representable (rows covariance) ->
  representable (length drifts) ->
  rows covariance <= length (diagonal covariance) ->
  (exists timeDelays value1,
     MultiPathGenerator_old drifts covariance times seed =
       Body (Ok (mk (Size.of_nat (rows covariance))
                    (RAG_make covariance seed)
                    (mkSample value1 1%float) timeDelays)) /\
     accepted drifts covariance times /\
     delays_checked times (length times - 1) (length times) timeDelays /\
     drifts_filled drifts timeDelays
       (MultiPath.make unspecified (rows covariance) times)
       (length times - 1) (rows covariance) 0 value1) \/
  (exists what,
     MultiPathGenerator_old drifts covariance times seed =
       Body (Err (Error what)) /\
     ~ accepted drifts covariance times).
Proof.
  unfold representable. intros Hne Htimes Hrows Hdrifts Hdiag.
  destruct times as [|t0 rest] eqn:Heq; [contradiction|].
  unfold MultiPathGenerator_old. rewrite <- Heq in *.
  assert (times !! 0 = Some t0) as Hfirst by (now rewrite Heq).
  assert (1 <= length times) as Hlen by (rewrite Heq; simpl; lia).
  clear Heq Hne.
  unfold TimeGrid.size. rewrite !Size_of_nat_small by assumption.
  rewrite Size_sub_1 by (unfold Size.modulus in *; lia).
  replace (Size.to_nat (N.of_nat (length times) - 1)) with (length times - 1)
    by (unfold Size.to_nat; lia).
  replace (Size.to_nat (N.of_nat (length times)) - 1) with (length times - 1)
    by (unfold Size.to_nat; lia).
  replace (Size.to_nat (N.of_nat (rows covariance))) with (rows covariance)
    by (unfold Size.to_nat; lia).
  destruct (N.eqb_spec (N.of_nat (length drifts)) (N.of_nat (rows covariance)))
    as [Hd|Hd]; simpl;
    [|right; eexists; split; [reflexivity|]; intros (? & _); lia].
  destruct (N.ltb_spec 1 (N.of_nat (length times))) as [Hl|Hl]; simpl;
    [|right; eexists; split; [reflexivity|]; intros (_ & ? & _); lia].
  rewrite (bind_Ok_l _ _ t0) by now apply at_Ok.
  destruct (0 <=? t0)%float eqn:Hpos; simpl;
    [|right; eexists; split; [reflexivity|];
      intros (_ & _ & (first & Hf & Hle) & _); congruence].
  destruct (check_times_run times Hlen)
    as [(timeDelays & -> & Hchecked)|
        [[what ->] (k & previous & current & Hp & Hc & Hk & Hle)]]; simpl;
    [|right; eexists; split; [reflexivity|];
      intros (_ & _ & _ & Hordered & _);
      rewrite (Hordered (k - 1) previous current) in Hle;
      [discriminate|exact Hp|
       replace (S (k - 1)) with k by lia; exact Hc]].
  pose proof Hchecked as [Hsize _].
  destruct (fill_assets_run drifts (diagonal covariance) timeDelays
              (MultiPath.make unspecified (rows covariance) times)
              (rows covariance)
              (times, length times - 1, length times - 1)
              (length times - 1) (rows covariance))
    as [(value1 & -> & Hfilled & Hnon)|[[what ->] Hneg]]; simpl;
    try lia; try reflexivity.
  - apply shape_make.
  - left. exists timeDelays, value1. split; [reflexivity|].
    split; [|split; assumption].
    repeat split; try lia; [eauto| |exact Hnon].
    intros i previous current Hp Hc.
    destruct Hchecked as [_ Hpairs].
    destruct (Hpairs (S i)) as (p' & c' & Hp' & Hc' & Hle & _).
    + apply lookup_lt_Some in Hc. lia.
    + simpl in Hp'. rewrite Nat.sub_0_r in Hp'. congruence.
  - right. eexists. split; [reflexivity|]. intros (_ & _ & _ & _ & Hnon).
    contradiction.
Qed.

(** X8.  The legacy constructor on a time grid (non-empty, with sizes
    that fit std::size_t and a diagonal entry per row of the
    covariance) returns a generator exactly when there are as many
    drifts as rows of the covariance, the grid has two points or more,
    starts at a time >= 0 and never steps back, and the diagonal of the
    covariance is >= 0; otherwise it raises an [Error]. *)
Theorem X8_legacy_constructor_validation
    (drifts : list float) (covariance : list (list float))
    (times : list float) (seed : Z) :
  times <> [] ->
  representable (length times) -> representable (rows covariance) ->
  representable (length drifts) ->
  rows covariance <= length (diagonal covariance) ->
  (accepted drifts covariance times ->
   exists g, MultiPathGenerator_old drifts covariance times seed = Body (Ok g)) /\
  (~ accepted drifts covariance times ->
   exists what,
     MultiPathGenerator_old drifts covariance times seed =
       Body (Err (Error what))).
Proof.
  intros Hne Htimes Hrows Hdrifts Hdiag.
  destruct (old_constructor_run drifts covariance times seed
              Hne Htimes Hrows Hdrifts Hdiag)
    as [(timeDelays & value1 & Hrun & Hacc & _)|(what & Hrun & Hrej)].
  - split; [eauto|]. intros Hrej. contradiction.
  - split; [intros Hacc; contradiction|eauto].
Qed.

(** X9.  A generator the legacy constructor returns holds the time
    steps and the drifts of its arguments: [timeDelays_] has one entry
    per step, times[i+1] - times[i]; every asset has increment arrays
    of that many entries on the grid, and every drift entry is
    drifts[j] * (times[i+1] - times[i]); the weight is 1, the number of
    assets is the number of rows of the covariance and the random-array
    generator is the one built from the covariance and the seed. *)
Theorem X9_legacy_constructor_state
    (drifts : list float) (covariance : list (list float))
    (times : list float) (seed : Z) (g : MultiPathGenerator_old.t RAG) :
  representable (length times) -> representable (rows covariance) ->
  representable (length drifts) ->
  rows covariance <= length (diagonal covariance) ->
  MultiPathGenerator_old drifts covariance times seed = Body (Ok g) ->
  numAssets_ g = Size.of_nat (rows covariance) /\
  rndArrayGen_ g = RAG_make covariance seed /\
  weight (next_ g) = 1%float /\
  length (timeDelays_ g) = length times - 1 /\
  shape (value (next_ g)) =
    replicate (rows covariance) (times, length times - 1, length times - 1) /\
  forall i, i < length times - 1 ->
    exists previous current,
      times !! i = Some previous /\ times !! S i = Some current /\
      timeDelays_ g !! i = Some (current - previous)%float /\
      forall j, j < rows covariance ->
        exists d, drifts !! j = Some d /\
          MultiPath.read_drift (value (next_ g)) j i =
            Ok (d * (current - previous))%float.
Proof.
  intros Htimes Hrows Hdrifts Hdiag Hg.
  assert (times <> []) as Hne.
  { intros ->. discriminate Hg. }
  destruct (old_constructor_run drifts covariance times seed
              Hne Htimes Hrows Hdrifts Hdiag)
    as [(timeDelays & value1 & Hrun & _ & [Hsize Hpairs] & Hsh & _ & Hfilled)|
        (what & Hrun & _)]; [|congruence].
  rewrite Hrun in Hg. injection Hg as <-. simpl.
  repeat split; auto; [now rewrite Hsh, shape_make|].
  intros i Hi.
  destruct (Hpairs (S i)) as (previous & current & Hp & Hc & _ & Hdelay);
    [lia|].
  simpl in Hp, Hdelay. rewrite Nat.sub_0_r in Hp, Hdelay.
  exists previous, current. repeat split; auto.
  intros j Hj.
  destruct (Hfilled j i) as (d & delay & Hd & Hdl & Hread); [left; lia|].
  exists d. split; [exact Hd|]. congruence.
Qed.

End LegacyConstructorProperties.

Section LegacyNext.
Context {RAG : Type} `{RandomArrayGenerator RAG}.
Import MultiPathGenerator_old.

Lemma arrays_S (i : nat) :
  forall rag : RAG,
    arrays (S i) rag = arrays i rag ++ [(RAG_next (advanced i rag)).1] /\
    advanced (S i) rag = (RAG_next (advanced i rag)).2.
Proof.
  induction i as [|i IH]; intros rag; [split; reflexivity|].
  destruct (IH (RAG_next rag).2) as [Ha Hd]. split.
  - change (arrays (S (S i)) rag)
      with ((RAG_next rag).1 :: arrays (S i) (RAG_next rag).2).
    rewrite Ha. reflexivity.
  - exact Hd.
Qed.

Lemma arrays_length (k : nat) : forall rag : RAG, length (arrays k rag) = k.
Proof. induction k as [|k IH]; intros rag; simpl; [reflexivity|]. now rewrite IH. Qed.

Lemma scatter_step timeDelays randomExtraction mp0 i j mp mp' :
  scattered timeDelays randomExtraction mp0 i j mp ->
  scatter timeDelays randomExtraction i j mp = Ok mp' ->
  scattered timeDelays randomExtraction mp0 i (S j) mp'.
Proof.
  intros (Hsh & Hdrift & Hdone & Hframe) Hrun. unfold scatter in Hrun.
  inv_result. rename a into x, a0 into delay.
  split; [now rewrite (write_diffusion_shape _ _ _ _ _ Hrun)|].
  split; [|split].
  - intros j' i'.
    now rewrite (read_drift_write_diffusion _ _ _ _ _ j' i' Hrun).
  - intros j' Hj'.
    rewrite (read_diffusion_write_diffusion _ _ _ _ _ j' i Hrun).
    case_decide as Hhere.
    + destruct Hhere as [-> _]. exists x, delay. auto.
    + apply Hdone. destruct (decide (j' = j)); [tauto|lia].
  - intros j' i' Hji.
    rewrite (read_diffusion_write_diffusion _ _ _ _ _ j' i' Hrun).
    rewrite decide_False by (intros [? ?]; lia).
    apply Hframe. lia.
Qed.

Lemma scatter_all_Ok timeDelays randomExtraction mp i n mp' :
  for_range 0 n (scatter timeDelays randomExtraction i) mp = Ok mp' ->
  scattered timeDelays randomExtraction mp i n mp'.
Proof.
  intros Hrun.
  apply (for_range_invariant (scattered timeDelays randomExtraction mp i))
    in Hrun; [exact Hrun| |].
  - repeat split; auto. intros j' Hj'. lia.
  - intros j s1 s2 _. apply scatter_step.
Qed.

Lemma scatter_all_returns timeDelays randomExtraction mp i n m :
  n <= length randomExtraction -> i < length timeDelays ->
  n <= length mp ->
  Forall (fun s : list float * nat * nat => m <= s.2) (shape mp) -> i < m ->
  exists mp', for_range 0 n (scatter timeDelays randomExtraction i) mp = Ok mp'.
Proof.
  intros Hx Hd Hmp Harrays Hi.
  destruct (for_range_returns (fun _ mp1 => shape mp1 = shape mp)
              (scatter timeDelays randomExtraction i) n 0 mp)
    as (mp' & Hrun & _); [reflexivity| |eauto].
  intros j mp1 Hj Hsh. unfold scatter.
  destruct (at_in_range randomExtraction j) as [x ->]; [lia|]. simpl.
  destruct (at_in_range timeDelays i) as [delay ->]; [lia|]. simpl.
  destruct (lookup_lt_is_Some_2 (shape mp) j) as [s Hs];
    [rewrite shape_length; lia|].
  rewrite Forall_lookup in Harrays. pose proof (Harrays j s Hs) as Hlen.
  destruct (write_diffusion_returns mp1 j i (x * QL_SQRT delay)%float s)
    as [mp2 Hw]; [now rewrite Hsh|simpl in Hlen; lia|].
  exists mp2. split; [exact Hw|].
  now rewrite (write_diffusion_shape _ _ _ _ _ Hw).
Qed.

Lemma draw_step_drawn (g : MultiPathGenerator_old.t RAG) i st st' :
  drawn_steps g i st -> draw_step g i st = Ok st' -> drawn_steps g (S i) st'.
Proof.
  destruct st as [[rag w] mp].
  intros (Hrag & Hw & Hsh & Hdrift & Hdone) Hrun.
  unfold draw_step in Hrun. simpl in *. inv_result. rename a into mp'.
  subst st'. apply scatter_all_Ok in Ha as (Hsh' & Hdrift' & Hnew & Hframe).
  destruct (arrays_S i (rndArrayGen_ g)) as [Harr Hadv].
  unfold drawn_steps. cbn [fst snd].
  split; [now rewrite Hadv, Hrag|]. split.
  { rewrite Harr. unfold compound_weight. rewrite foldl_snoc.
    fold (compound_weight (arrays i (rndArrayGen_ g))). now rewrite Hw, Hrag. }
  split; [congruence|]. split.
  { intros j' i'. now rewrite Hdrift'. }
  intros j i' Hj Hi'. destruct (decide (i' = i)) as [->|Hne].
  - destruct (Hnew j Hj) as (x & delay & Hx & Hd & Hread).
    exists (RAG_next rag).1, x, delay. rewrite Harr, Hrag in *.
    repeat split; auto.
    rewrite lookup_app_r by (rewrite arrays_length; lia).
    now rewrite arrays_length, Nat.sub_diag.
  - destruct (Hdone j i') as (s & x & delay & Hs & Hx & Hd & Hread);
      [exact Hj|lia|].
    exists s, x, delay. rewrite Harr.
    rewrite lookup_app_l by (rewrite arrays_length; lia).
    repeat split; auto.
    rewrite (Hframe j i') by (left; exact Hne). exact Hread.
Qed.

End LegacyNext.

Section LegacyNextProperties.
Context {RAG : Type} `{RandomArrayGenerator RAG}.
Import MultiPathGenerator_old.

Lemma old_steps_head (g : MultiPathGenerator_old.t RAG) (path0 : Path.t) :
  at_ (value (next_ g)) 0 = Ok path0 -> old_steps g = Path.size path0.
Proof.
  intros Hp%at_Ok. unfold old_steps.
  destruct (value (next_ g)); simpl in Hp; simplify_eq. reflexivity.
Qed.

Lemma old_next_Ok (g g' : MultiPathGenerator_old.t RAG) path :
  next g = Ok (path, g') ->
  drawn_steps g (old_steps g) (rndArrayGen_ g', weight path, value path) /\
  g' = mk (numAssets_ g) (rndArrayGen_ g') path (timeDelays_ g).
Proof.
  unfold next. intros Hrun. inv_result. rename a into path0, a0 into st.
  rewrite <- (old_steps_head g path0) in Ha0 by now apply at_Ok.
  apply (for_range_invariant (drawn_steps g)) in Ha0.
  - destruct st as [[rag w] mp]. simpl in *. subst path g'. simpl. auto.
  - repeat split; auto. intros j i' _ Hi'. lia.
  - intros i s1 s2 _. apply draw_step_drawn.
Qed.

Lemma arrays_add (a b : nat) :
  forall rag : RAG,
    arrays (a + b) rag = arrays a rag ++ arrays b (advanced a rag).
Proof.
  induction a as [|a IH]; intros rag; simpl; [reflexivity|]. now rewrite IH.
Qed.

Lemma old_next_returns (g : MultiPathGenerator_old.t RAG) :
  old_well_formed g ->
  (forall k, Forall (fun s : Sample (list float) => old_assets g <= length (value s))
               (arrays k (rndArrayGen_ g))) ->
  exists path g', next g = Ok (path, g').
Proof.
  intros [Hfirst Hpaths Harrays Hdelays] Hdrawn. unfold next.
  destruct (at_in_range (value (next_ g)) 0) as [path0 Hpath0]; [lia|].
  rewrite Hpath0. simpl.
  rewrite <- (old_steps_head g path0 Hpath0).
  destruct (for_range_returns
              (fun i st => st.1.1 = advanced i (rndArrayGen_ g) /\
                           shape st.2 = shape (value (next_ g)))
              (draw_step g) (old_steps g) 0
              (rndArrayGen_ g, 1%float, value (next_ g)))
    as (st & -> & _); [auto| |simpl; eauto].
  intros i [[rag w] mp] Hi [Hrag Hsh]. simpl in *. unfold draw_step. simpl.
  destruct (arrays_S i (rndArrayGen_ g)) as [Harr Hadv].
  pose proof (Hdrawn (S i)) as Hall. rewrite Harr in Hall.
  apply Forall_app in Hall as [_ Hlast].
  rewrite Forall_singleton, <- Hrag in Hlast.
  assert (old_assets g <= length mp) as Hmp
    by (apply (f_equal length) in Hsh; rewrite !shape_length in Hsh; lia).
  assert (Forall (fun s : list float * nat * nat => old_steps g <= s.2)
            (shape mp)) as Hshape by now rewrite Hsh.
  destruct (scatter_all_returns (timeDelays_ g) (value (RAG_next rag).1)
              mp i (old_assets g) (old_steps g) Hlast) as [mp' Hmp'];
    [lia|exact Hmp|exact Hshape|lia|].
  unfold old_assets in Hmp'. rewrite Hmp'. cbn [bind].
  eexists. split; [reflexivity|]. cbn [fst snd].
  split; [rewrite Hrag, <- Hadv; reflexivity|].
  apply scatter_all_Ok in Hmp' as (-> & _). exact Hsh.
Qed.

(** X10.  A call of the legacy [next] on a well-formed state, with
    random arrays of an entry per asset, returns a path whose weight is
    1.0 multiplied in turn by the weights of the arrays of its steps
    (one array is drawn per step, and the generator is left after that
    many draws), whose diffusion entry of asset j at step i is entry j
    of the array of step i times sqrt(timeDelays_[i]), and whose drift
    entries and array lengths are those [next_] had. *)
Theorem X10_legacy_next (g : MultiPathGenerator_old.t RAG) :
  old_well_formed g ->
  (forall k, Forall (fun s : Sample (list float) => old_assets g <= length (value s))
               (arrays k (rndArrayGen_ g))) ->
  exists path g',
    next g = Ok (path, g') /\
    weight path = compound_weight (arrays (old_steps g) (rndArrayGen_ g)) /\
    g' = mk (numAssets_ g) (advanced (old_steps g) (rndArrayGen_ g)) path
            (timeDelays_ g) /\
    shape (value path) = shape (value (next_ g)) /\
    (forall j i, MultiPath.read_drift (value path) j i =
                 MultiPath.read_drift (value (next_ g)) j i) /\
    (forall j i, j < old_assets g -> i < old_steps g ->
       exists s x delay,
         arrays (old_steps g) (rndArrayGen_ g) !! i = Some s /\
         value s !! j = Some x /\ timeDelays_ g !! i = Some delay /\
         MultiPath.read_diffusion (value path) j i =
           Ok (x * QL_SQRT delay)%float).
Proof.
  intros Hwf Hdrawn.
  destruct (old_next_returns g Hwf Hdrawn) as (path & g' & Hrun).
  exists path, g'. split; [exact Hrun|].
  apply old_next_Ok in Hrun
    as [(Hrag & Hw & Hsh & Hdrift & Hdiff) Hg']. simpl in *.
  repeat split; auto. now rewrite <- Hrag.
Qed.

Lemma advanced_add (a b : nat) :
  forall rag : RAG, advanced (a + b) rag = advanced b (advanced a rag).
Proof. induction a as [|a IH]; intros rag; simpl; [reflexivity|]. now rewrite IH. Qed.

Lemma old_next_keeps (g g' : MultiPathGenerator_old.t RAG) path :
  old_well_formed g -> next g = Ok (path, g') ->
  old_well_formed g' /\ old_assets g' = old_assets g /\
  old_steps g' = old_steps g /\ timeDelays_ g' = timeDelays_ g /\
  rndArrayGen_ g' = advanced (old_steps g) (rndArrayGen_ g) /\
  next_ g' = path.
Proof.
  intros [Hfirst Hpaths Harrays Hdelays]
    [(Hrag & _ & Hsh & Hdrift & _) ->]%old_next_Ok.
  simpl in *.
  assert (length (value path) = length (value (next_ g))) as Hlen
    by (rewrite <- !shape_length; congruence).
  assert (old_steps (mk (numAssets_ g) (rndArrayGen_ g') path (timeDelays_ g))
          = old_steps g) as Hsteps.
  { unfold old_steps. simpl.
    destruct (value path) as [|p1 mp1], (value (next_ g)) as [|p2 mp2];
      try discriminate; [reflexivity|].
    injection Hsh as _ Hd _ _. exact Hd. }
  repeat split; auto;
    unfold old_assets in *; simpl; rewrite ?Hsteps, ?Hsh, ?Hlen; auto.
Qed.

Lemma old_calls_run (calls : nat) :
  forall g : MultiPathGenerator_old.t RAG,
    old_well_formed g ->
    (forall k, Forall (fun s : Sample (list float) =>
                         old_assets g <= length (value s))
                 (arrays k (rndArrayGen_ g))) ->
    length (old_paths calls g) = calls /\
    forall c, c < calls ->
      exists path, old_paths calls g !! c = Some (Ok path) /\ old_call g c path.
Proof.
  induction calls as [|calls IH]; intros g Hwf Hdrawn; simpl;
    [split; [reflexivity|intros c Hc; lia]|].
  destruct (old_next_returns g Hwf Hdrawn) as (path & g' & Hrun).
  rewrite Hrun. simpl.
  destruct (old_next_keeps g g' path Hwf Hrun)
    as (Hwf' & Hassets & Hsteps & Hdelays & Hrag & Hnext).
  apply old_next_Ok in Hrun as [(_ & Hw & Hsh & Hdrift & Hdiff) _].
  simpl in Hw, Hsh, Hdrift, Hdiff.
  destruct (IH g' Hwf') as [Hlen Hall].
  { intros k. rewrite Hassets, Hrag.
    pose proof (Hdrawn (old_steps g + k)) as Hk.
    rewrite arrays_add in Hk. now apply Forall_app in Hk as [_ Hk]. }
  split; [now rewrite Hlen|]. intros [|c] Hc.
  - exists path. split; [reflexivity|]. unfold old_call. simpl. auto.
  - destruct (Hall c) as (p & Hp & Hpw & Hpsh & Hpdrift & Hpdiff); [lia|].
    exists p. split; [exact Hp|].
    rewrite Hassets, Hsteps, Hdelays, Hrag, Hnext in *.
    rewrite <- advanced_add in Hpw, Hpdiff.
    unfold old_call.
    replace (S c * old_steps g) with (old_steps g + c * old_steps g) by lia.
    split; [exact Hpw|]. split; [congruence|]. split; [|exact Hpdiff].
    intros j i. now rewrite Hpdrift.
Qed.

End LegacyNextProperties.

Section LegacyRuns.
Context `{Library} `{LegacyLibrary} {RAG : Type} `{RandomArrayGenerator RAG}.
Import MultiPathGenerator_old.

Lemma old_constructed
    (drifts : list float) (covariance : list (list float))
    (times : list float) (seed : Z) (g : MultiPathGenerator_old.t RAG) :
  representable (length times) -> representable (rows covariance) ->
  representable (length drifts) ->
  rows covariance <= length (diagonal covariance) ->
  MultiPathGenerator_old drifts covariance times seed = Body (Ok g) ->
  old_assets g = rows covariance /\
  rndArrayGen_ g = RAG_make covariance seed /\
  shape (value (next_ g)) =
    replicate (rows covariance) (times, length times - 1, length times - 1) /\
  delays_checked times (length times - 1) (length times) (timeDelays_ g) /\
  forall j i, j < rows covariance -> i < length times - 1 ->
    exists d delay, drifts !! j = Some d /\ timeDelays_ g !! i = Some delay /\
      MultiPath.read_drift (value (next_ g)) j i = Ok (d * delay)%float.
Proof.
  intros Htimes Hrows Hdrifts Hdiag Hg.
  assert (times <> []) as Hne.
  { intros ->. discriminate Hg. }
  destruct (old_constructor_run drifts covariance times seed
              Hne Htimes Hrows Hdrifts Hdiag)
    as [(timeDelays & value1 & Hrun & _ & Hchecked & Hsh & _ & Hfilled)|
        (what & Hrun & _)]; [|congruence].
  rewrite Hrun in Hg. injection Hg as <-. unfold old_assets. simpl.
  rewrite Size_of_nat_small by assumption.
  split; [unfold Size.to_nat; lia|]. split; [reflexivity|].
  split; [now rewrite Hsh, shape_make|]. split; [exact Hchecked|].
  intros j i Hj Hi. apply Hfilled. left. lia.
Qed.

Lemma old_constructed_steps (g : MultiPathGenerator_old.t RAG)
    (times : list float) (rows : nat) :
  1 <= rows ->
  shape (value (next_ g)) =
    replicate rows (times, length times - 1, length times - 1) ->
  old_steps g = length times - 1.
Proof.
  intros Hrows Hsh. unfold old_steps.
  destruct rows as [|rows]; [lia|].
  destruct (value (next_ g)) as [|p mp]; [discriminate|].
  injection Hsh as _ Hd _ _. exact Hd.
Qed.

(** X11.  Every call of the legacy [next] on a generator its constructor
    returned (one asset or more, random arrays of an entry per asset)
    returns a path.  Call number c, counted from 0, uses the arrays
    number c * steps to c * steps + steps - 1 of the generator built
    from the covariance and the seed: its weight is 1.0 multiplied in
    turn by their weights (the weight starts again at 1.0 with every
    call), its diffusion entry of asset j at step i is entry j of the
    array of its step i times sqrt(times[i+1] - times[i]), and its drift
    entry is still drifts[j] * (times[i+1] - times[i]). *)
Theorem X11_legacy_calls
    (drifts : list float) (covariance : list (list float))
    (times : list float) (seed : Z) (g : MultiPathGenerator_old.t RAG)
    (calls : nat) :
  representable (length times) -> representable (rows covariance) ->
  representable (length drifts) ->
  rows covariance <= length (diagonal covariance) ->
  1 <= rows covariance ->
  (forall k, Forall (fun s : Sample (list float) =>
                       rows covariance <= length (value s))
               (arrays k (RAG_make covariance seed))) ->
  MultiPathGenerator_old drifts covariance times seed = Body (Ok g) ->
  length (old_paths calls g) = calls /\
  forall c, c < calls ->
    exists path,
      old_paths calls g !! c = Some (Ok path) /\
      weight path =
        compound_weight
          (arrays (length times - 1)
             (advanced (c * (length times - 1)) (RAG_make covariance seed))) /\
      forall j i, j < rows covariance -> i < length times - 1 ->
        exists d previous current s x,
          drifts !! j = Some d /\
          times !! i = Some previous /\ times !! S i = Some current /\
          arrays (length times - 1)
            (advanced (c * (length times - 1)) (RAG_make covariance seed))
            !! i = Some s /\
          value s !! j = Some x /\
          MultiPath.read_drift (value path) j i =
            Ok (d * (current - previous))%float /\
          MultiPath.read_diffusion (value path) j i =
            Ok (x * QL_SQRT (current - previous))%float.
Proof.
  intros Htimes Hrows Hdrifts Hdiag Hone Hdrawn Hg.
  destruct (old_constructed drifts covariance times seed g
              Htimes Hrows Hdrifts Hdiag Hg)
    as (Hassets & Hrag & Hsh & [Hsize Hpairs] & Hfilled).
  pose proof (old_constructed_steps g times (rows covariance) Hone Hsh)
    as Hsteps.
  assert (old_well_formed g) as Hwf.
  { split.
    - rewrite <- shape_length, Hsh, length_replicate. exact Hone.
    - rewrite <- shape_length, Hsh, length_replicate, Hassets. apply le_n.
    - rewrite Hsh, Hsteps. apply Forall_replicate. apply le_n.
    - rewrite Hsteps, Hsize. apply le_n. }
  destruct (old_calls_run calls g Hwf) as [Hlen Hall].
  { intros k. rewrite Hassets, Hrag. apply Hdrawn. }
  split; [exact Hlen|]. intros c Hc.
  destruct (Hall c Hc) as (path & Hpath & Hw & _ & Hdrift & Hdiff).
  rewrite Hsteps, Hrag, Hassets in *.
  exists path. split; [exact Hpath|]. split; [exact Hw|].
  intros j i Hj Hi.
  destruct (Hfilled j i Hj Hi) as (d & delay & Hd & Hdelay & Hread).
  destruct (Hdiff j i Hj Hi) as (s & x & delay' & Hs & Hx & Hdelay' & Hread').
  destruct (Hpairs (S i)) as (previous & current & Hp & Hc' & _ & Hstored);
    [lia|].
  simpl in Hp, Hstored. rewrite Nat.sub_0_r in Hp, Hstored.
  exists d, previous, current, s, x.
  rewrite Hdrift, Hread, Hread'.
  assert (delay = (current - previous)%float) as -> by congruence.
  assert (delay' = (current - previous)%float) as -> by congruence.
  repeat split; auto.
Qed.

(** X12.  The legacy constructor asks for no asset: on a covariance
    without rows (and no drifts) it returns a generator whose [next_]
    holds no path, and the read of [next_.value[0].size()] in [next]
    is then outside the container. *)
Theorem X12_legacy_no_assets
    (drifts : list float) (covariance : list (list float))
    (times : list float) (seed : Z) (g : MultiPathGenerator_old.t RAG) :
  representable (length times) -> representable (length drifts) ->
  rows covariance = 0 ->
  MultiPathGenerator_old drifts covariance times seed = Body (Ok g) ->
  drifts = [] /\ value (next_ g) = [] /\ next g = Err OutOfRange.
Proof.
  intros Htimes Hdrifts Hrows Hg.
  assert (representable (rows covariance)) as Hrep by (now rewrite Hrows).
  assert (times <> []) as Hne.
  { intros ->. discriminate Hg. }
  destruct (old_constructor_run drifts covariance times seed
              Hne Htimes Hrep Hdrifts ltac:(lia))
    as [(timeDelays & value1 & Hrun & (Hlen & _) & _ & Hsh & _)|
        (what & Hrun & _)]; [|congruence].
  rewrite Hrun in Hg. injection Hg as <-.
  rewrite shape_make, Hrows in Hsh. apply (f_equal length) in Hsh.
  rewrite shape_length in Hsh. simpl in Hsh.
  split; [apply nil_length_inv; lia|].
  apply nil_length_inv in Hsh. simpl. split; [exact Hsh|].
  unfold next. simpl. rewrite Hsh. reflexivity.
Qed.

End LegacyRuns.

(** ** The further properties on concrete generators *)

Section FurtherRuns.
Import Examples MoreExamples.
Import MultiPathGenerator.

Lemma counting_fixed_dimension :
  forall sg : CountingSG,
    length (value (nextSequence sg).1) = Size.to_nat (dimension sg).
Proof. intros sg. simpl. apply length_replicate. Qed.

Lemma counting_kept_dimension :
  forall sg : CountingSG, dimension (nextSequence sg).2 = dimension sg.
Proof. reflexivity. Qed.

Example counted_constructed :
  counted library [0.25; 0.75]%float =
    Ok (counted_generator 0 0.25 0.5 0.75 1.5).
Proof. vm_compute. reflexivity. Qed.

Example counted_constructed_nan :
  counted library_nan [9; 9]%float = Ok (counted_generator nan 9 18 9 18).
Proof. vm_compute. reflexivity. Qed.

Example counted_well_formed :
  well_formed (counted_generator 0 0.25 0.5 0.75 1.5)
    (nextSequence (generator_ (counted_generator 0 0.25 0.5 0.75 1.5))).1.
Proof.
  split; try (vm_compute; lia); try reflexivity.
  - repeat constructor.
  - repeat constructor.
Qed.




(** X1 on the two-asset generator and its first sequence. *)
Lemma X1_two_assets_witness :
  (well_formed two_assets_generator
     (nextSequence (generator_ two_assets_generator)).1 /\
   length (value (nextSequence (generator_ two_assets_generator)).1) =
     steps two_assets_generator * assets two_assets_generator) /\
  concat (map (draw_block two_assets_generator
                 (nextSequence (generator_ two_assets_generator)).1)
            (seq 0 (steps two_assets_generator))) =
    value (nextSequence (generator_ two_assets_generator)).1.
Proof.
  split; [split; [exact two_assets_well_formed|reflexivity]|].
  apply (X1_steps_use_consecutive_blocks two_assets_generator
           (nextSequence (generator_ two_assets_generator)).1
           two_assets_well_formed eq_refl).
Defined.

(** X2 on the two-asset generator, at its second step. *)
Lemma X2_two_assets_witness :
  (assets two_assets_generator = 2 /\
   well_formed two_assets_generator
     (nextSequence (generator_ two_assets_generator)).1 /\
   1 < steps two_assets_generator) /\
  exists temp,
    shock two_assets_generator
      (nextSequence (generator_ two_assets_generator)).1 1 = Ok temp /\
    CorrelatedStepTransform (sqrtCovariance_ two_assets_generator)
      (draw_block two_assets_generator
         (nextSequence (generator_ two_assets_generator)).1 1) = Ok temp.
Proof.
  split; [split; [reflexivity|split; [exact two_assets_well_formed|apply le_n]]|].
  apply (X2_two_asset_shock_is_row_normalised two_assets_generator
           (nextSequence (generator_ two_assets_generator)).1 1
           eq_refl two_assets_well_formed (le_n 2)).
Defined.

(** X3 on S = 2·I for three assets and the block (1, 1, 1). *)
Lemma X3_three_assets_witness :
  correlate [[2; 0; 0]; [0; 2; 0]; [0; 0; 2]]%float [1; 1; 1]%float =
    Ok [1; 1; 2]%float /\
  [1; 1; 2]%float !! 2 =
    Some (inner_product [0; 0; 2]%float [1; 1; 1]%float).
Proof.
  assert (correlate [[2; 0; 0]; [0; 2; 0]; [0; 0; 2]]%float [1; 1; 1]%float =
            Ok [1; 1; 2]%float) as Hrun by (vm_compute; reflexivity).
  split; [exact Hrun|].
  apply (proj2 (X3_components_beyond_second_not_divided _ _ _ Hrun) 2
           [0; 0; 2]%float (le_n 2) eq_refl).
Defined.

(** X4 on the counting generator, over two calls. *)
Lemma X4_counted_witness :
  ((forall sg : CountingSG,
      length (value (nextSequence sg).1) = Size.to_nat (dimension sg)) /\
   (forall sg : CountingSG, dimension (nextSequence sg).2 = dimension sg) /\
   counted library [0.25; 0.75]%float =
     Ok (counted_generator 0 0.25 0.5 0.75 1.5) /\
   representable 3 /\ representable (2 * (3 - 1))) /\
  Forall2 (fun r sequence_ =>
             exists path, r = Ok path /\
               shape (value path) =
                 replicate 2 ([0; 1; 3]%float, 3 - 1, 3 - 1) /\
               weight path = weight sequence_)
    (paths 2 (counted_generator 0 0.25 0.5 0.75 1.5))
    (draws 2 (mkCounting 4 1)).
Proof.
  assert (representable 3) as H3 by reflexivity.
  assert (representable (2 * (3 - 1))) as H4 by reflexivity.
  split;
    [repeat split; auto using counting_fixed_dimension, counted_constructed|].
  apply (X4_constructed_calls_return
           counting_fixed_dimension counting_kept_dimension
           [gbm 0.5 1; gbm 0 2] [0.25; 0.75]%float
           [[1; 0]; [0; 4]]%float [0; 1; 3]%float (mkCounting 4 1)
           (counted_generator 0 0.25 0.5 0.75 1.5) 2 counted_constructed
           (le_n 2) (le_n 2) eq_refl);
    [repeat constructor|exact H3|exact H4].
Defined.

(** X5 on the counting generator, over two calls. *)
Lemma X5_counted_witness :
  ((forall sg : CountingSG,
      length (value (nextSequence sg).1) = Size.to_nat (dimension sg)) /\
   (forall sg : CountingSG, dimension (nextSequence sg).2 = dimension sg) /\
   well_formed (counted_generator 0 0.25 0.5 0.75 1.5)
     (nextSequence (generator_ (counted_generator 0 0.25 0.5 0.75 1.5))).1 /\
   length (value (next_ (counted_generator 0 0.25 0.5 0.75 1.5))) =
     assets (counted_generator 0 0.25 0.5 0.75 1.5)) /\
  paths 2 (counted_generator 0 0.25 0.5 0.75 1.5) =
    map (next_path (counted_generator 0 0.25 0.5 0.75 1.5))
      (draws 2 (mkCounting 4 1)).
Proof.
  split;
    [split; [apply counting_fixed_dimension|];
     split; [apply counting_kept_dimension|];
     split; [exact counted_well_formed|reflexivity]|].
  apply (X5_paths_are_a_function_of_the_draws
           counting_fixed_dimension counting_kept_dimension
           (counted_generator 0 0.25 0.5 0.75 1.5) 2
           counted_well_formed eq_refl).
Defined.

(** X6 on the counting generator: the drifts (0.25, 0.75) with zeros
    in fresh arrays against the drifts (9, 9) with NaN in them. *)
Lemma X6_counted_witness :
  ((forall sg : CountingSG,
      length (value (nextSequence sg).1) = Size.to_nat (dimension sg)) /\
   (forall sg : CountingSG, dimension (nextSequence sg).2 = dimension sg) /\
   counted library [0.25; 0.75]%float =
     Ok (counted_generator 0 0.25 0.5 0.75 1.5) /\
   counted library_nan [9; 9]%float = Ok (counted_generator nan 9 18 9 18)) /\
  @paths library CountingSG _ 2 (counted_generator 0 0.25 0.5 0.75 1.5) =
    @paths library_nan CountingSG _ 2 (counted_generator nan 9 18 9 18).
Proof.
  assert (representable 3) as H3 by reflexivity.
  assert (representable (2 * (3 - 1))) as H4 by reflexivity.
  split;
    [repeat split;
     auto using counting_fixed_dimension, counted_constructed,
       counted_constructed_nan|].
  apply (X6_paths_ignore_drifts_and_fresh_memory
           counting_fixed_dimension counting_kept_dimension
           library library_nan
           [gbm 0.5 1; gbm 0 2] [0.25; 0.75]%float [9; 9]%float
           [[1; 0]; [0; 4]]%float [0; 1; 3]%float (mkCounting 4 1)
           (counted_generator 0 0.25 0.5 0.75 1.5)
           (counted_generator nan 9 18 9 18) 2
           (fun _ => eq_refl) eq_refl
           counted_constructed counted_constructed_nan
           (le_n 2) (le_n 2) eq_refl);
    [repeat constructor|exact H3|exact H4].
Defined.

(** X7 on two assets with a single process. *)
Lemma X7_short_witness :
  (representable 2 /\ length [gbm 0 1] < 2) /\
  exists g, short_of_processes = Ok g /\ next g = Err OutOfRange.
Proof.
  assert (representable 2) as H2 by reflexivity.
  split; [split; [exact H2|apply le_n]|].
  apply (X7_processes_are_not_counted
           [gbm 0 1] [0; 0]%float [[4; 0]; [0; 4]]%float [0; 1]%float
           (mkReplay 2 [mkSample [1; 1]%float 0.5%float]));
    [vm_compute; reflexivity..|exact H2|apply le_n].
Defined.

End FurtherRuns.

Section LegacyRunsOnExamples.
Import Examples MoreExamples.
Import MultiPathGenerator_old.

Lemma counting_arrays_sized (k : nat) :
  forall rag : CountingRAG,
    Forall (fun s : Sample (list float) => counting_size rag <= length (value s))
      (arrays k rag).
Proof.
  induction k as [|k IH]; intros rag; simpl; constructor.
  - simpl. now rewrite length_replicate.
  - apply (IH (mkCountingRAG (counting_size rag) (counting_entry rag + 1)%float)).
Qed.

Example legacy_constructed : legacy_two_assets = Body (Ok legacy_generator).
Proof. vm_compute. reflexivity. Qed.

Example legacy_no_assets_constructed :
  legacy_no_assets = Body (Ok legacy_empty_generator).
Proof. vm_compute. reflexivity. Qed.

Example legacy_accepted :
  accepted [0.25; 0.75]%float [[1; 0]; [0; 4]]%float [0; 1; 3]%float.
Proof.
  split; [reflexivity|]. split; [simpl; lia|].
  split; [exists 0%float; split; reflexivity|]. split.
  - intros [|[|[|i]]] previous current Hp Hc; simpl in Hp, Hc; simplify_eq;
      reflexivity.
  - intros [|[|j]] x Hj Hx; simpl in Hx; simplify_eq; reflexivity.
Qed.

Example legacy_diagonal :
  rows [[1; 0]; [0; 4]]%float <= length (diagonal [[1; 0]; [0; 4]]%float).
Proof. vm_compute. apply le_n. Qed.

Example legacy_well_formed : old_well_formed legacy_generator.
Proof.
  split; try (vm_compute; lia). repeat constructor.
Qed.

(** X8 on two assets over the grid 0, 1, 3. *)
Lemma X8_legacy_witness :
  ([0; 1; 3]%float <> [] /\ representable 3 /\ representable 2 /\
   2 <= length (diagonal [[1; 0]; [0; 4]]%float) /\
   accepted [0.25; 0.75]%float [[1; 0]; [0; 4]]%float [0; 1; 3]%float) /\
  exists g, legacy_two_assets = Body (Ok g).
Proof.
  assert (representable 3) as H3 by reflexivity.
  assert (representable 2) as H2 by reflexivity.
  split;
    [split; [discriminate|];
     split; [exact H3|]; split; [exact H2|];
     split; [exact legacy_diagonal|exact legacy_accepted]|].
  apply (proj1 (X8_legacy_constructor_validation
                  (RAG := CountingRAG)
                  [0.25; 0.75]%float [[1; 0]; [0; 4]]%float [0; 1; 3]%float 7%Z
                  ltac:(discriminate) H3 H2 H2 legacy_diagonal)
               legacy_accepted).
Defined.

(** X9 on two assets over the grid 0, 1, 3. *)
Lemma X9_legacy_witness :
  (representable 3 /\ representable 2 /\
   2 <= length (diagonal [[1; 0]; [0; 4]]%float) /\
   legacy_two_assets = Body (Ok legacy_generator)) /\
  numAssets_ legacy_generator = Size.of_nat 2 /\
  rndArrayGen_ legacy_generator = RAG_make [[1; 0]; [0; 4]]%float 7%Z /\
  weight (next_ legacy_generator) = 1%float /\
  length (timeDelays_ legacy_generator) = 3 - 1 /\
  shape (value (next_ legacy_generator)) =
    replicate 2 ([0; 1; 3]%float, 3 - 1, 3 - 1) /\
  forall i, i < 3 - 1 ->
    exists previous current,
      [0; 1; 3]%float !! i = Some previous /\
      [0; 1; 3]%float !! S i = Some current /\
      timeDelays_ legacy_generator !! i = Some (current - previous)%float /\
      forall j, j < 2 ->
        exists d, [0.25; 0.75]%float !! j = Some d /\
          MultiPath.read_drift (value (next_ legacy_generator)) j i =
            Ok (d * (current - previous))%float.
Proof.
  assert (representable 3) as H3 by reflexivity.
  assert (representable 2) as H2 by reflexivity.
  split;
    [split; [exact H3|]; split; [exact H2|];
     split; [exact legacy_diagonal|exact legacy_constructed]|].
  apply (X9_legacy_constructor_state
           [0.25; 0.75]%float [[1; 0]; [0; 4]]%float [0; 1; 3]%float 7%Z
           legacy_generator H3 H2 H2 legacy_diagonal legacy_constructed).
Defined.

(** X10 on the state the legacy constructor returns for two assets. *)
Lemma X10_legacy_witness :
  (old_well_formed legacy_generator /\
   forall k, Forall (fun s : Sample (list float) =>
                       old_assets legacy_generator <= length (value s))
               (arrays k (rndArrayGen_ legacy_generator))) /\
  exists path g',
    next legacy_generator = Ok (path, g') /\
    weight path =
      compound_weight
        (arrays (old_steps legacy_generator) (rndArrayGen_ legacy_generator)) /\
    g' = mk (numAssets_ legacy_generator)
            (advanced (old_steps legacy_generator)
               (rndArrayGen_ legacy_generator))
            path (timeDelays_ legacy_generator) /\
    shape (value path) = shape (value (next_ legacy_generator)) /\
    (forall j i, MultiPath.read_drift (value path) j i =
                 MultiPath.read_drift (value (next_ legacy_generator)) j i) /\
    (forall j i, j < old_assets legacy_generator ->
       i < old_steps legacy_generator ->
       exists s x delay,
         arrays (old_steps legacy_generator) (rndArrayGen_ legacy_generator)
           !! i = Some s /\
         value s !! j = Some x /\
         timeDelays_ legacy_generator !! i = Some delay /\
         MultiPath.read_diffusion (value path) j i =
           Ok (x * QL_SQRT delay)%float).
Proof.
  split;
    [split; [exact legacy_well_formed|];
     intros k; apply (counting_arrays_sized k (mkCountingRAG 2 1))|].
  apply (X10_legacy_next legacy_generator legacy_well_formed
           (fun k => counting_arrays_sized k (mkCountingRAG 2 1))).
Defined.

(** X11 on two assets over the grid 0, 1, 3, for two calls. *)
Lemma X11_legacy_witness :
  (representable 3 /\ representable 2 /\
   2 <= length (diagonal [[1; 0]; [0; 4]]%float) /\
   (forall k, Forall (fun s : Sample (list float) => 2 <= length (value s))
                (arrays k (mkCountingRAG 2 1))) /\
   legacy_two_assets = Body (Ok legacy_generator)) /\
  length (old_paths 2 legacy_generator) = 2 /\
  forall c, c < 2 ->
    exists path,
      old_paths 2 legacy_generator !! c = Some (Ok path) /\
      weight path =
        compound_weight
          (arrays (3 - 1) (advanced (c * (3 - 1)) (mkCountingRAG 2 1))) /\
      forall j i, j < 2 -> i < 3 - 1 ->
        exists d previous current s x,
          [0.25; 0.75]%float !! j = Some d /\
          [0; 1; 3]%float !! i = Some previous /\
          [0; 1; 3]%float !! S i = Some current /\
          arrays (3 - 1) (advanced (c * (3 - 1)) (mkCountingRAG 2 1))
            !! i = Some s /\
          value s !! j = Some x /\
          MultiPath.read_drift (value path) j i =
            Ok (d * (current - previous))%float /\
          MultiPath.read_diffusion (value path) j i =
            Ok (x * QL_SQRT (current - previous))%float.
Proof.
  assert (representable 3) as H3 by reflexivity.
  assert (representable 2) as H2 by reflexivity.
  split;
    [split; [exact H3|]; split; [exact H2|]; split; [exact legacy_diagonal|];
     split; [intros k; apply (counting_arrays_sized k (mkCountingRAG 2 1))|
             exact legacy_constructed]|].
  apply (X11_legacy_calls
           [0.25; 0.75]%float [[1; 0]; [0; 4]]%float [0; 1; 3]%float 7%Z
           legacy_generator 2 H3 H2 H2 legacy_diagonal (le_S 1 1 (le_n 1))
           (fun k => counting_arrays_sized k (mkCountingRAG 2 1))
           legacy_constructed).
Defined.

(** X12 on the grid 0, 1. *)
Lemma X12_legacy_witness :
  (representable 2 /\ representable 0 /\
   rows ([] : list (list float)) = 0 /\
   legacy_no_assets = Body (Ok legacy_empty_generator)) /\
  ([] : list float) = [] /\
  value (next_ legacy_empty_generator) = [] /\
  next legacy_empty_generator = Err OutOfRange.
Proof.
  assert (representable 2) as H2 by reflexivity.
  assert (representable 0) as H0 by reflexivity.
  split;
    [split; [exact H2|]; split; [exact H0|];
     split; [reflexivity|exact legacy_no_assets_constructed]|].
  apply (X12_legacy_no_assets [] [] [0; 1]%float 7%Z legacy_empty_generator
           H2 H0 eq_refl legacy_no_assets_constructed).
Defined.

End LegacyRunsOnExamples.
